(** * Streaming code generation client: [generateCodeFromPrompt] and [handleDownload]

    A shallow embedding of [src/services/api.ts] (the streaming client that
    reassembles generated files from a server-sent-event-like response) and of
    the [handleDownload] handler of the preview components, with the
    properties of the chunk reassembly protocol proved about them.

    Conventions of the embedding.
    - A JavaScript string is the list of its UTF-16 code units, each a [N].
    - The built-ins the code calls ([split], [join], [trim], [startsWith],
      [slice], [pop], [replace] with the pattern [/^\//]) are written out
      following ECMA-262.
    - [JSON.parse] is a parameter of the development: every general theorem
      holds for an arbitrary parser.  A reference parser for the ECMA-404
      grammar is given to run the code on concrete streams.
    - The progress callback is observed through the sequence of the
      arguments it is called with; it is taken not to throw.
    - The stream is the list of the texts that the reads give until [done].
      A stream that fails, with a read that is rejected after reads that
      resolve, is run by [generateCodeFromPrompt_rejected]. *)

From Stdlib Require Import NArith ZArith.
From stdpp Require Import list strings gmap sorting.

Open Scope N_scope.

(** ** Strings *)

Abbreviation jsstring := (list N).

(** The code units of an ASCII literal. *)
Definition lit (s : string) : jsstring :=
  Ascii.N_of_ascii <$> String.list_ascii_of_string s.

(** The same, with every apostrophe read as a double quote: used to write
    JSON text in examples. *)
Definition dq (s : string) : jsstring :=
  (λ c, if c =? 39 then 34 else c) <$> lit s.

Arguments lit : simpl never.
Arguments dq : simpl never.

(** The line feed, ['\n']. *)
Definition nl : N := 10.

(** ECMA-262 [WhiteSpace] and [LineTerminator] code units, the ones
    [String.prototype.trim] removes. *)
Definition is_white_space (c : N) : bool :=
  (c =? 9) || (c =? 10) || (c =? 11) || (c =? 12) || (c =? 13) || (c =? 32)
  || (c =? 160) || (c =? 5760) || ((8192 <=? c) && (c <=? 8202))
  || (c =? 8232) || (c =? 8233) || (c =? 8239) || (c =? 8287)
  || (c =? 12288) || (c =? 65279).

Fixpoint trimStart (s : jsstring) : jsstring :=
  match s with
  | c :: s' => if is_white_space c then trimStart s' else s
  | [] => []
  end.

Definition trimEnd (s : jsstring) : jsstring := reverse (trimStart (reverse s)).

(** [s.trim()] *)
Definition trim (s : jsstring) : jsstring := trimEnd (trimStart s).

(** [s.startsWith(p)] *)
Fixpoint startsWith (s p : jsstring) {struct p} : bool :=
  match p, s with
  | [], _ => true
  | c :: p', d :: s' => (c =? d) && startsWith s' p'
  | _ :: _, [] => false
  end.

(** [s.slice(n)] for a constant [n >= 0]. *)
Definition slice (n : nat) (s : jsstring) : jsstring := drop n s.

(** [s.split(sep)] for a separator of one code unit: never empty, the empty
    string splits into one empty segment. *)
Fixpoint split (sep : N) (s : jsstring) : list jsstring :=
  match s with
  | [] => [[]]
  | c :: s' =>
      if c =? sep then [] :: split sep s'
      else match split sep s' with
           | seg :: segs => (c :: seg) :: segs
           | [] => [[c]]
           end
  end.

(** [a.join(sep)] for a separator of one code unit. *)
Fixpoint join (sep : N) (a : list jsstring) : jsstring :=
  match a with
  | [] => []
  | [x] => x
  | x :: rest => x ++ sep :: join sep rest
  end.

(** [a.pop()]: the removed last element ([None] is [undefined]) and the
    array that is left. *)
Definition pop {A} (a : list A) : option A * list A := (last a, removelast a).

(** [filename.replace(/^\//, '')] *)
Definition strip_leading_slash (filename : jsstring) : jsstring :=
  match filename with
  | 47 :: rest => rest
  | _ => filename
  end.

(** ** JSON values *)

(** A JSON number, kept as the decimal [mantissa * 10 ^ exponent] its
    literal denotes. *)
Record number := { mantissa : Z; exponent : Z }.

#[local] Set Warnings "-register-all".

Inductive json :=
  | JNull
  | JBool (b : bool)
  | JNum (n : number)
  | JStr (s : jsstring)
  | JArr (elements : list json)
  | JObj (members : list (jsstring * json)).

(** A JavaScript value that comes out of JSON data: [None] is [undefined]. *)
Abbreviation value := (option json).

(** What the code can throw.  [Error v] is [new Error(v)]: its message is
    [v] when [v] is a string, and the string [v] converts to otherwise. *)
Inductive exn :=
  | SyntaxError
  | TypeError
  | Error (message : json).

Inductive result (A : Type) :=
  | Ok (a : A)
  | Throw (e : exn).
Arguments Ok {A} a.
Arguments Throw {A} e.

#[global] Instance result_ret : MRet result := λ A a, Ok a.

#[global] Instance result_bind : MBind result := λ A B k r,
  match r with
  | Ok a => k a
  | Throw e => Throw e
  end.

(** The member an object holds under [name]: of two members with one name,
    [JSON.parse] keeps the later. *)
Fixpoint member (name : jsstring) (members : list (jsstring * json)) : value :=
  match members with
  | [] => None
  | (k, v) :: rest =>
      match member name rest with
      | Some v' => Some v'
      | None => if decide (k = name) then Some v else None
      end
  end.

(** [v.name] for the three names the code reads, [code], [file] and
    [detail]: no prototype defines them, so only an object can hold one;
    reading from [null] or [undefined] throws. *)
Definition get (v : value) (name : jsstring) : result value :=
  match v with
  | None | Some JNull => Throw TypeError
  | Some (JObj members) => Ok (member name members)
  | Some _ => Ok None
  end.

(** [v?.name] *)
Definition get_optional (v : value) (name : jsstring) : value :=
  match v with
  | Some (JObj members) => member name members
  | _ => None
  end.

(** Whether the double nearest to the decimal is not zero: a non-zero
    decimal rounds to zero exactly when it is at most [2 ^ -1075]. *)
Definition number_nonzero (n : number) : bool :=
  negb (mantissa n =? 0)%Z
  && ((0 <=? exponent n)%Z
      || (10 ^ (- exponent n) <? 2 ^ 1075 * Z.abs (mantissa n))%Z).

(** [ToBoolean] *)
Definition ToBoolean (v : value) : bool :=
  match v with
  | None | Some JNull => false
  | Some (JBool b) => b
  | Some (JNum n) => number_nonzero n
  | Some (JStr s) => bool_decide (s ≠ [])
  | Some (JArr _) | Some (JObj _) => true
  end.

(** [v === s] for a string [s] *)
Definition strict_equals (v : value) (s : jsstring) : bool :=
  match v with
  | Some (JStr t) => bool_decide (t = s)
  | _ => false
  end.

(** ** A reference [JSON.parse] (ECMA-404) *)

Module JSON.

Definition is_ws (c : N) : bool :=
  (c =? 32) || (c =? 9) || (c =? 10) || (c =? 13).

Fixpoint skip_ws (s : jsstring) : jsstring :=
  match s with
  | c :: s' => if is_ws c then skip_ws s' else s
  | [] => []
  end.

Definition hex_digit (c : N) : option N :=
  if (48 <=? c) && (c <=? 57) then Some (c - 48)
  else if (97 <=? c) && (c <=? 102) then Some (c - 87)
  else if (65 <=? c) && (c <=? 70) then Some (c - 55)
  else None.

Definition hex4 (a b c d : N) : option N :=
  match hex_digit a, hex_digit b, hex_digit c, hex_digit d with
  | Some a, Some b, Some c, Some d => Some (((a * 16 + b) * 16 + c) * 16 + d)
  | _, _, _, _ => None
  end.

(** The characters of a string after its opening quote, up to the closing
    one; [acc] holds the decoded code units, latest first. *)
Fixpoint string_body (s acc : jsstring) : option (jsstring * jsstring) :=
  match s with
  | [] => None
  | 34 :: r => Some (rev acc, r)
  | 92 :: r =>
      match r with
      | 34 :: r' => string_body r' (34 :: acc)
      | 92 :: r' => string_body r' (92 :: acc)
      | 47 :: r' => string_body r' (47 :: acc)
      | 98 :: r' => string_body r' (8 :: acc)
      | 102 :: r' => string_body r' (12 :: acc)
      | 110 :: r' => string_body r' (10 :: acc)
      | 114 :: r' => string_body r' (13 :: acc)
      | 116 :: r' => string_body r' (9 :: acc)
      | 117 :: a :: b :: c :: d :: r' =>
          match hex4 a b c d with
          | Some u => string_body r' (u :: acc)
          | None => None
          end
      | _ => None
      end
  | c :: r => if c <? 32 then None else string_body r (c :: acc)
  end.

Definition is_digit (c : N) : bool := (48 <=? c) && (c <=? 57).

(** A run of digits read onto [acc]; also how many were read. *)
Fixpoint digits (s : jsstring) (acc count : Z) : Z * Z * jsstring :=
  match s with
  | c :: r =>
      if is_digit c then digits r (acc * 10 + Z.of_N (c - 48))%Z (count + 1)%Z
      else (acc, count, s)
  | [] => (acc, count, s)
  end.

Definition exponent_part (s : jsstring) : option (Z * jsstring) :=
  match s with
  | c :: r =>
      if (c =? 101) || (c =? 69) then
        let '(neg, r) :=
          match r with
          | 45 :: r' => (true, r')
          | 43 :: r' => (false, r')
          | _ => (false, r)
          end in
        let '(e, count, r) := digits r 0%Z 0%Z in
        if (count =? 0)%Z then None
        else Some (if neg : bool then (- e)%Z else e, r)
      else Some (0%Z, s)
  | [] => Some (0%Z, s)
  end.

Definition fraction_part (s : jsstring) (int : Z) : option (Z * Z * jsstring) :=
  match s with
  | 46 :: r =>
      let '(m, count, r) := digits r int 0%Z in
      if (count =? 0)%Z then None else Some (m, count, r)
  | _ => Some (int, 0%Z, s)
  end.

Definition parse_number (s : jsstring) : option (json * jsstring) :=
  let '(neg, s) :=
    match s with
    | 45 :: r => (true, r)
    | _ => (false, s)
    end in
  int ← match s with
        | 48 :: r => Some (0%Z, r)
        | c :: _ =>
            if is_digit c then let '(i, _, r) := digits s 0%Z 0%Z in Some (i, r)
            else None
        | [] => None
        end;
  '(m, count, r) ← fraction_part int.2 int.1;
  '(e, r) ← exponent_part r;
  Some (JNum {| mantissa := if neg : bool then (- m)%Z else m;
                exponent := (e - count)%Z |}, r).

Definition parse_literal (word : jsstring) (v : json) (s : jsstring)
  : option (json * jsstring) :=
  if startsWith s word then Some (v, drop (length word) s) else None.

Fixpoint parse_value (fuel : nat) (s : jsstring) : option (json * jsstring) :=
  match fuel with
  | O => None
  | S fuel =>
      match skip_ws s with
      | 123 :: r =>
          match skip_ws r with
          | 125 :: r' => Some (JObj [], r')
          | r' => parse_members fuel r' []
          end
      | 91 :: r =>
          match skip_ws r with
          | 93 :: r' => Some (JArr [], r')
          | r' => parse_elements fuel r' []
          end
      | 34 :: r =>
          '(str, r') ← string_body r [];
          Some (JStr str, r')
      | 116 :: r => parse_literal (lit "true") (JBool true) (116 :: r)
      | 102 :: r => parse_literal (lit "false") (JBool false) (102 :: r)
      | 110 :: r => parse_literal (lit "null") JNull (110 :: r)
      | s' => parse_number s'
      end
  end
with parse_elements (fuel : nat) (s : jsstring) (acc : list json)
  : option (json * jsstring) :=
  match fuel with
  | O => None
  | S fuel =>
      '(v, r) ← parse_value fuel s;
      match skip_ws r with
      | 44 :: r' => parse_elements fuel r' (v :: acc)
      | 93 :: r' => Some (JArr (rev (v :: acc)), r')
      | _ => None
      end
  end
with parse_members (fuel : nat) (s : jsstring) (acc : list (jsstring * json))
  : option (json * jsstring) :=
  match fuel with
  | O => None
  | S fuel =>
      match skip_ws s with
      | 34 :: r =>
          '(key, r) ← string_body r [];
          match skip_ws r with
          | 58 :: r =>
              '(v, r) ← parse_value fuel r;
              match skip_ws r with
              | 44 :: r' => parse_members fuel r' ((key, v) :: acc)
              | 125 :: r' => Some (JObj (rev ((key, v) :: acc)), r')
              | _ => None
              end
          | _ => None
          end
      | _ => None
      end
  end.

(** [JSON.parse(text)]: [None] stands for the [SyntaxError] it throws.
    Every call of the parser consumes a character or ends, so twice the
    length of the text is fuel enough. *)
Definition parse (text : jsstring) : option json :=
  '(v, r) ← parse_value (2 * length text + 2) text;
  match skip_ws r with
  | [] => Some v
  | _ => None
  end.

End JSON.

(** ** The file table and its snapshots *)

Record GeneratedFile := { filename : jsstring; content : jsstring }.

Record GenerationResponse := { files : list GeneratedFile }.

(** [Map<string, string>]: the entries in insertion order, keys unique. *)
Abbreviation Map := (list (jsstring * jsstring)).

(** [m.get(key)], [None] for [undefined]. *)
Fixpoint Map_get (m : Map) (key : jsstring) : option jsstring :=
  match m with
  | [] => None
  | (k, v) :: rest => if decide (k = key) then Some v else Map_get rest key
  end.

(** [m.set(key, v)]: a present key keeps its place, a new one goes last. *)
Fixpoint Map_set (m : Map) (key v : jsstring) : Map :=
  match m with
  | [] => [(key, v)]
  | (k, v') :: rest =>
      if decide (k = key) then (k, v) :: rest else (k, v') :: Map_set rest key v
  end.

(** [Array.from(files.entries()).map(([filename, content]) => ...)], the
    expression behind both [currentFiles] and [finalFiles]. *)
Definition entries_to_files (m : Map) : list GeneratedFile :=
  (λ '(filename, content),
     {| filename := strip_leading_slash filename; content := content |}) <$> m.

(** ** The response of [fetch] *)

(** [json] is what [response.json()] resolves to, [None] when it rejects;
    [body] is [None] for a [null] body, else the text fragments that
    [decoder.decode(value, {stream: true})] gives for the successive reads,
    up to [done]. *)
Record Response := {
  ok : bool;
  statusText : jsstring;
  json_body : option json;
  body : option (list jsstring)
}.

(** What the loop has done so far: the table, and the arguments
    [onProgress] was called with, oldest first. *)
Record state := { st_files : Map; st_calls : list (list GeneratedFile) }.

Section generate.

Variable JSON_parse : jsstring → option json.

(** The statements of the [try] block that follow [JSON.parse].  [Ok None]
    is [continue]; [Ok (Some (files, currentFiles))] ends the block with
    the table updated and [currentFiles] handed to [onProgress].

    Only a string has a [split] method, so any other [chunk.code] throws.
    When [filename] is not a string, the table takes it as a key, and
    [filename.replace] then throws while [currentFiles] is built: the
    callback is not reached and the table is dropped with the call. *)
Definition apply_chunk (files : Map) (chunk : json)
  : result (option (Map * list GeneratedFile)) :=
  file ← get (Some chunk) (lit "file");
  code ← get (Some chunk) (lit "code");
  match code with
  | Some (JStr code) =>
      let accumulate (filename : value)
        : result (option (Map * list GeneratedFile)) :=
        match filename with
        | Some (JStr filename) =>
            let currentContent := default [] (Map_get files filename) in
            let content := join nl (tail (split nl code)) in
            let files := Map_set files filename (currentContent ++ content) in
            let currentFiles := entries_to_files files in
            Ok (Some (files, currentFiles))
        | _ => Throw TypeError
        end in
      let firstLine := default [] (head (split nl code)) in
      if bool_decide (firstLine ≠ []) && startsWith firstLine (lit "//")
      then accumulate (Some (JStr (trim (slice 2 firstLine))))
      else if strict_equals file (lit "typescript")
      then Ok None
      else accumulate file
  | _ => Throw TypeError
  end.

Definition try_block (files : Map) (trimmedLine : jsstring)
  : result (option (Map * list GeneratedFile)) :=
  let jsonStr := trim (slice 5 trimmedLine) in
  if bool_decide (jsonStr = []) then Ok None
  else match JSON_parse jsonStr with
       | None => Throw SyntaxError
       | Some chunk => apply_chunk files chunk
       end.

Definition catch_block {A} (r : result A) : result A :=
  match r with
  | Throw _ => Throw (Error (JStr (lit "Failed to parse server response")))
  | Ok a => Ok a
  end.

(** The body of [for (const line of lines)]. *)
Definition loop_body (files : Map) (line : jsstring)
  : result (option (Map * list GeneratedFile)) :=
  let trimmedLine := trim line in
  if bool_decide (trimmedLine = []) || negb (startsWith trimmedLine (lit "data: "))
  then Ok None
  else catch_block (try_block files trimmedLine).

(** [for (const line of lines)]: the state reached, and the exception that
    ended the loop, if one did. *)
Fixpoint for_lines (st : state) (lines : list jsstring) : state * option exn :=
  match lines with
  | [] => (st, None)
  | line :: rest =>
      match loop_body (st_files st) line with
      | Throw e => (st, Some e)
      | Ok None => for_lines st rest
      | Ok (Some (files, currentFiles)) =>
          for_lines {| st_files := files;
                       st_calls := st_calls st ++ [currentFiles] |} rest
      end
  end.

(** [while (true)] over the reads that are left; the empty list is [done]. *)
Fixpoint while_read (st : state) (buffer : jsstring) (reads : list jsstring)
  : state * option exn :=
  match reads with
  | [] => (st, None)
  | value :: rest =>
      let buffer := buffer ++ value in
      let '(last_line, lines) := pop (split nl buffer) in
      let buffer := default [] last_line in
      match for_lines st lines with
      | (st, Some e) => (st, Some e)
      | (st, None) => while_read st buffer rest
      end
  end.

(** The calls of [onProgress], and how the function ends. *)
Definition generateCodeFromPrompt (response : Response)
  : list (list GeneratedFile) * result GenerationResponse :=
  if negb (ok response) then
    let errorData := default JNull (json_body response) in
    let detail := get_optional (Some errorData) (lit "detail") in
    let message :=
      if ToBoolean detail
      then default JNull detail
      else JStr (lit "Failed to generate code: " ++ statusText response) in
    ([], Throw (Error message))
  else
    match body response with
    | None => ([], Throw (Error (JStr (lit "No response body received"))))
    | Some reads =>
        match while_read {| st_files := []; st_calls := [] |} [] reads with
        | (st, Some e) => (st_calls st, Throw e)
        | (st, None) =>
            let finalFiles := entries_to_files (st_files st) in
            (st_calls st, Ok {| files := finalFiles |})
        end
    end.

End generate.

(** ** The archive of [handleDownload] *)

(** The files of a [JSZip] object, by name.  The folder entries that
    [JSZip] adds for the directories of a name hold no content and are not
    files; they are left out.

    [zip.file(name, data)] adds the file or replaces the one of that name. *)
Definition JSZip_file (zip : gmap jsstring jsstring) (name data : jsstring)
  : gmap jsstring jsstring :=
  <[name := data]> zip.

(** [zip.generateAsync(...)]: the files that are written to the archive.
    The walk over the entries of the object passes over the entry whose
    name is empty, so that one is not written. *)
Definition JSZip_generateAsync (zip : gmap jsstring jsstring)
  : gmap jsstring jsstring :=
  delete [] zip.

(** The archive that is offered for download. *)
Definition handleDownload (files : list GeneratedFile) : gmap jsstring jsstring :=
  let zip :=
    foldl (λ zip file,
             if bool_decide (filename file ≠ lit "status.log")
             then JSZip_file zip (filename file) (content file)
             else zip)
          ∅ files in
  JSZip_generateAsync zip.

(** Sequencing of two loops: the second runs when the first has not thrown. *)
Definition continue_with (r : state * option exn) (k : state → state * option exn)
  : state * option exn :=
  match r with
  | (st, Some e) => (st, Some e)
  | (st, None) => k st
  end.

(** ** The stream decoder, seen from outside *)

(** The segments of [s] that a newline ends, and the segment after the last
    newline: the two halves of [lines.pop()] on [s.split('\n')]. *)
Definition complete_lines (s : jsstring) : list jsstring := (pop (split nl s)).2.
Definition residual (s : jsstring) : jsstring := default [] (pop (split nl s)).1.

(** The lines that [while_read] hands to its inner loop over all the reads,
    and the buffer it is left with at [done]. *)
Fixpoint decode (buffer : jsstring) (reads : list jsstring)
  : list jsstring * jsstring :=
  match reads with
  | [] => ([], buffer)
  | value :: rest =>
      let buffer := buffer ++ value in
      let '(last_line, lines) := pop (split nl buffer) in
      let buffer := default [] last_line in
      let '(more, buffer) := decode buffer rest in
      (lines ++ more, buffer)
  end.

(** The text of a list of lines, each ended by a newline. *)
Definition unlines (lines : list jsstring) : jsstring :=
  concat ((λ line, line ++ [nl]) <$> lines).

(** ** Lines and payloads *)

(** The test of [loop_body] that lets a line into the [try] block. *)
Definition forwarded (line : jsstring) : bool :=
  let trimmedLine := trim line in
  negb (bool_decide (trimmedLine = []) || negb (startsWith trimmedLine (lit "data: "))).

(** The text [loop_body] gives to [JSON.parse] for a line. *)
Definition payload (line : jsstring) : jsstring := trim (slice 5 (trim line)).

Definition is_string (v : value) : bool :=
  match v with
  | Some (JStr _) => true
  | _ => false
  end.

(** The shape of [CodeChunkResponse]: an object with a string [code] and a
    string [file]. *)
Definition expected_shape (chunk : json) : bool :=
  is_string (get_optional (Some chunk) (lit "code"))
  && is_string (get_optional (Some chunk) (lit "file")).

(** Whether the first line of [code] is a filename marker. *)
Definition has_marker (code : jsstring) : bool :=
  let firstLine := default [] (head (split nl code)) in
  bool_decide (firstLine ≠ []) && startsWith firstLine (lit "//").

(** The filename a chunk that is not discarded goes to, and what it
    appends to that file. *)
Definition resolved_filename (code file : jsstring) : jsstring :=
  if has_marker code then trim (slice 2 (default [] (head (split nl code))))
  else file.

Definition appended (code : jsstring) : jsstring := join nl (tail (split nl code)).

(** [line] carries a chunk with the code [code] that goes to the file [f]. *)
Definition chunk_line (JSON_parse : jsstring → option json)
    (f line code : jsstring) : Prop :=
  forwarded line = true
  ∧ ∃ chunk file,
      JSON_parse (payload line) = Some chunk
      ∧ get (Some chunk) (lit "code") = Ok (Some (JStr code))
      ∧ get (Some chunk) (lit "file") = Ok (Some (JStr file))
      ∧ (has_marker code = true ∨ file ≠ lit "typescript")
      ∧ resolved_filename code file = f.

(** The parse results on which the [try] block throws: no parse, a [code]
    that is not a string, or no marker and a [file] that is not a string. *)
Definition rejected (parsed : option json) : bool :=
  match parsed with
  | None => true
  | Some chunk =>
      match get_optional (Some chunk) (lit "code") with
      | Some (JStr code) =>
          negb (has_marker code)
          && negb (is_string (get_optional (Some chunk) (lit "file")))
      | _ => true
      end
  end.

Definition with_body (response : Response) (reads : list jsstring) : Response :=
  {| ok := ok response; statusText := statusText response;
     json_body := json_body response; body := Some reads |}.

Definition parse_error : exn :=
  Error (JStr (lit "Failed to parse server response")).

(** ** Snapshots *)

(** How a table entry shows in a snapshot: the content as it is, the
    filename without its leading slash if it has one. *)
Definition emitted_as (entry : jsstring * jsstring) (file : GeneratedFile) : Prop :=
  content file = entry.2
  ∧ ((∃ rest, entry.1 = 47 :: rest ∧ filename file = rest)
     ∨ (head entry.1 ≠ Some 47 ∧ filename file = entry.1)).

(** A snapshot of some table with unique keys. *)
Definition snapshot_of_table (snap : list GeneratedFile) : Prop :=
  ∃ table : Map, NoDup table.*1 ∧ snap = entries_to_files table.

(** What the loop keeps true: the keys of the table are unique, every call
    of the callback got a snapshot of a table, and the last call got the
    snapshot of the table as it is now. *)
Definition snapshot_inv (st : state) : Prop :=
  NoDup (st_files st).*1
  ∧ Forall snapshot_of_table (st_calls st)
  ∧ (st_calls st = [] ∨ last (st_calls st) = Some (entries_to_files (st_files st))).

(** ** The table at each call *)

(** The table as it is at each call of [onProgress], oldest first: the
    [files] that [currentFiles] is made from.  [for_lines_tables] goes
    through the lines as [for_lines] does, and [while_read_tables] through
    the reads as [while_read] does; they keep the table where those keep
    the argument of the call. *)
Fixpoint for_lines_tables (JSON_parse : jsstring → option json)
    (files : Map) (lines : list jsstring) : list Map :=
  match lines with
  | [] => []
  | line :: rest =>
      match loop_body JSON_parse files line with
      | Throw _ => []
      | Ok None => for_lines_tables JSON_parse files rest
      | Ok (Some (files, _)) => files :: for_lines_tables JSON_parse files rest
      end
  end.

Fixpoint while_read_tables (JSON_parse : jsstring → option json)
    (st : state) (buffer : jsstring) (reads : list jsstring) : list Map :=
  match reads with
  | [] => []
  | value :: rest =>
      let buffer := buffer ++ value in
      let '(last_line, lines) := pop (split nl buffer) in
      let buffer := default [] last_line in
      for_lines_tables JSON_parse (st_files st) lines
      ++ match for_lines JSON_parse st lines with
         | (_, Some _) => []
         | (st, None) => while_read_tables JSON_parse st buffer rest
         end
  end.

(** ** A read that is rejected *)

(** [await reader.read()] stands in the outer [try], which has a [finally]
    and no [catch], and not in the [try] of a line.  [while_read] is the
    loop over a stream that ends with [done].  Here the stream fails: the
    reads [reads] resolve and the read after them is rejected with
    [reason].  The [await] throws the reason, [finally] releases the lock,
    and nothing catches it. *)
Fixpoint while_read_rejected (JSON_parse : jsstring → option json)
    (reason : exn) (st : state) (buffer : jsstring) (reads : list jsstring)
  : state * option exn :=
  match reads with
  | [] => (st, Some reason)
  | value :: rest =>
      let buffer := buffer ++ value in
      let '(last_line, lines) := pop (split nl buffer) in
      let buffer := default [] last_line in
      match for_lines JSON_parse st lines with
      | (st, Some e) => (st, Some e)
      | (st, None) => while_read_rejected JSON_parse reason st buffer rest
      end
  end.

(** The calls of [onProgress] and the end of [generateCodeFromPrompt] on a
    response with a success status and a body whose stream fails so. *)
Definition generateCodeFromPrompt_rejected (JSON_parse : jsstring → option json)
    (reads : list jsstring) (reason : exn)
  : list (list GeneratedFile) * result GenerationResponse :=
  match while_read_rejected JSON_parse reason
          {| st_files := []; st_calls := [] |} [] reads with
  | (st, Some e) => (st_calls st, Throw e)
  | (st, None) =>
      let finalFiles := entries_to_files (st_files st) in
      (st_calls st, Ok {| files := finalFiles |})
  end.

(** ** Running the code *)

Definition stream (reads : list jsstring) : Response :=
  {| ok := true; statusText := lit "OK"; json_body := None; body := Some reads |}.

Definition initial : state := {| st_files := []; st_calls := [] |}.

(** A chunk for [a.ts], as one line and as the same line in three reads. *)
Definition a_line : jsstring :=
  dq "data: {'code':'// a.ts\nx','file':'typescript'}".

Definition a_reads : list jsstring :=
  [dq "data: {'co"; dq "de':'// a.ts\nx','file':'ty"; dq "pescript'}" ++ [nl]].

Definition a_files : list GeneratedFile :=
  [{| filename := lit "a.ts"; content := lit "x" |}].

(** A chunk with neither marker nor filename. *)
Definition unnamed_line : jsstring :=
  dq "data: {'code':'const y=2;','file':'typescript'}".

Definition unnamed_chunk : json :=
  JObj [(lit "code", JStr (lit "const y=2;"));
        (lit "file", JStr (lit "typescript"))].

(** A line cut before its end. *)
Definition cut_line : jsstring := dq "data: {'code':".

(** A chunk with a marker and no [file]. *)
Definition no_file_line : jsstring := dq "data: {'code':'// a.ts\nx'}".

(** The line of [a_line] after two spaces. *)
Definition indented_line : jsstring := lit "  " ++ a_line.

(** A chunk with a [file] and no marker. *)
Definition two_line_chunk : jsstring :=
  dq "data: {'code':'const a=1;\nconst b=2;','file':'src/a.ts'}".

Definition not_found : Response :=
  {| ok := false; statusText := lit "Not Found"; json_body := None; body := None |}.

Definition refused : Response :=
  {| ok := false; statusText := lit "Bad Request";
     json_body := Some (JObj [(lit "detail", JStr (lit "prompt too long"))]);
     body := None |}.

(** Two chunks whose markers differ by a leading slash, and the files the
    call returns for them. *)
Definition slash_reads : list jsstring :=
  [dq "data: {'code':'// /a.ts\none','file':'typescript'}" ++ [nl];
   dq "data: {'code':'// a.ts\ntwo','file':'typescript'}" ++ [nl]].

Definition slash_files : list GeneratedFile :=
  [{| filename := lit "a.ts"; content := lit "one" |};
   {| filename := lit "a.ts"; content := lit "two" |}].

(** ** Chunks with a marker, and how snapshots follow one another *)



(** From one snapshot to the next: a file is added at the end, or one file
    has text added at the end of its content. *)
Definition snapshot_step (s s' : list GeneratedFile) : Prop :=
  (∃ f, s' = s ++ [f])
  ∨ (∃ before f after extra,
       s = before ++ f :: after
       ∧ s' = before
              ++ {| filename := filename f; content := content f ++ extra |}
              :: after).

(** What the loop keeps true of the calls made so far, when it starts from
    an empty table. *)
Definition growth_inv (st : state) : Prop :=
  ((st_calls st = [] ∧ st_files st = [])
   ∨ last (st_calls st) = Some (entries_to_files (st_files st)))
  ∧ (∀ s, st_calls st !! 0%nat = Some s → ∃ f, s = [f])
  ∧ (∀ i s s', st_calls st !! i = Some s → st_calls st !! S i = Some s' →
               snapshot_step s s').

(** ** The preview component: status messages, expanded directories,
       the language of a file *)

(** The effect that follows [files] to the status messages: the new value
    of [statusMessages], given the one before.  A message is any value
    that [content.code] can be. *)
Definition status_effect (JSON_parse : jsstring → option json)
    (files : list GeneratedFile) (statusMessages : list json) : list json :=
  match List.find (λ f, bool_decide (filename f = lit "status.log")) files with
  | None => statusMessages
  | Some statusLog =>
      let try_block : result (list json) :=
        match JSON_parse (content statusLog) with
        | None => Throw SyntaxError
        | Some parsed =>
            code ← get (Some parsed) (lit "code");
            if ToBoolean code
            then Ok (statusMessages ++ [default JNull code])
            else Ok statusMessages
        end in
      match try_block with
      | Ok messages => messages
      | Throw _ =>
          let messages :=
            filter (λ msg, trim msg ≠ []) (split nl (content statusLog)) in
          JStr <$> messages
      end
  end.

(** The updater [toggleDir] gives to [setExpandedDirs]. *)
Definition toggleDir (path : jsstring) (prev : gset jsstring) : gset jsstring :=
  if bool_decide (path ∈ prev) then prev ∖ {[path]} else prev ∪ {[path]}.

(** The full stop, ['.']. *)
Definition dot : N := 46.

(** [filename.split('.').pop() || 'plaintext'], the language handed to
    [CodePreview]. *)
Definition language (filename : jsstring) : jsstring :=
  let extension := default [] (pop (split dot filename)).1 in
  if bool_decide (extension = []) then lit "plaintext" else extension.

(** ** The directory tree of [buildDirectoryTree] *)

Inductive NodeType := type_file | type_directory.

(** [children] and [content] are optional members: [None] is [undefined]. *)
Inductive DirectoryNode :=
  mkNode (name : jsstring) (type : NodeType) (path : jsstring)
         (children : option (list DirectoryNode)) (content : option jsstring).

Definition node_name (node : DirectoryNode) : jsstring :=
  match node with mkNode name _ _ _ _ => name end.
Definition node_type (node : DirectoryNode) : NodeType :=
  match node with mkNode _ type _ _ _ => type end.
Definition node_path (node : DirectoryNode) : jsstring :=
  match node with mkNode _ _ path _ _ => path end.
Definition node_children (node : DirectoryNode) : option (list DirectoryNode) :=
  match node with mkNode _ _ _ children _ => children end.
Definition node_content (node : DirectoryNode) : option jsstring :=
  match node with mkNode _ _ _ _ content => content end.

(** [{ ...node, children }] *)
Definition with_children (node : DirectoryNode) (children : list DirectoryNode)
  : DirectoryNode :=
  match node with
  | mkNode name type path _ content => mkNode name type path (Some children) content
  end.

#[global] Instance NodeType_eq_dec : EqDecision NodeType.
Proof. solve_decision. Defined.

(** The solidus, ['/']. *)
Definition slash : N := 47.

(** [parts.forEach((part, index) => ...)] from [index] on, [rest] being the
    parts from there; the result is [currentLevel] as the loop leaves it.
    The code walks down the tree through [currentLevel] and pushes onto the
    array it has reached; every [children] array belongs to one node, so
    the same tree comes from rebuilding the nodes on the way back.

    When the node found is a file and the part is not the last,
    [currentLevel] becomes [undefined], and [currentLevel.find] throws at
    the next part. *)
Fixpoint add_parts (parts : list jsstring) (file_content : jsstring)
    (index : nat) (rest : list jsstring) (currentLevel : list DirectoryNode)
  : result (list DirectoryNode) :=
  match rest with
  | [] => Ok currentLevel
  | part :: rest =>
      let isLastPart := bool_decide (index = (length parts - 1)%nat) in
      match list_find (λ node, node_name node = part) currentLevel with
      | Some (i, existingNode) =>
          if isLastPart then Ok currentLevel
          else match node_children existingNode with
               | Some children =>
                   children ← add_parts parts file_content (S index) rest children;
                   Ok (<[i := with_children existingNode children]> currentLevel)
               | None => Throw TypeError
               end
      | None =>
          let newNode :=
            mkNode part
                   (if isLastPart then type_file else type_directory)
                   (join slash (take (S index) parts))
                   (if isLastPart then None else Some [])
                   (if isLastPart then Some file_content else None) in
          if isLastPart then Ok (currentLevel ++ [newNode])
          else
            children ← add_parts parts file_content (S index) rest [];
            Ok (currentLevel ++ [with_children newNode children])
      end
  end.

(** [files.forEach(file => ...)] on [root]. *)
Fixpoint add_files (files : list GeneratedFile) (root : list DirectoryNode)
  : result (list DirectoryNode) :=
  match files with
  | [] => Ok root
  | file :: files =>
      let parts := split slash (filename file) in
      root ← add_parts parts (content file) 0%nat parts root;
      add_files files root
  end.

(** [nodes.sort(compare)] for a comparison that is consistent, as the one
    of [sortNodes] is when [localeCompare] is: the sort is stable, so its
    result is the one of the insertion sort, which puts each element
    behind those that do not come after it. *)
Fixpoint insert_sorted {A} (compare : A → A → Z) (x : A) (sorted : list A)
  : list A :=
  match sorted with
  | [] => [x]
  | y :: rest =>
      if (0 <? compare y x)%Z then x :: y :: rest
      else y :: insert_sorted compare x rest
  end.

Definition Array_sort {A} (compare : A → A → Z) (a : list A) : list A :=
  foldl (λ sorted x, insert_sorted compare x sorted) [] a.

(** The number of levels below a list of nodes. *)
Fixpoint height (node : DirectoryNode) : nat :=
  match node with
  | mkNode _ _ _ children _ =>
      match children with
      | None => 0%nat
      | Some nodes =>
          S ((fix heights nodes :=
                match nodes with
                | [] => 0%nat
                | node :: nodes => Nat.max (height node) (heights nodes)
                end) nodes)
      end
  end.

Definition heights (nodes : list DirectoryNode) : nat :=
  foldr (λ node h, Nat.max (height node) h) 0%nat nodes.

Section tree.

(** [a.localeCompare(b)], which depends on the locale. *)
Variable localeCompare : jsstring → jsstring → Z.

(** The comparison function of [sortNodes]. *)
Definition compare_nodes (a b : DirectoryNode) : Z :=
  if decide (node_type a = node_type b) then
    if decide (node_type a = type_file) then
      let aIsDotFile := startsWith (node_name a) (lit ".") in
      let bIsDotFile := startsWith (node_name b) (lit ".") in
      if negb (eqb aIsDotFile bIsDotFile) then
        if aIsDotFile then (-1)%Z else 1%Z
      else localeCompare (node_name a) (node_name b)
    else localeCompare (node_name a) (node_name b)
  else if decide (node_type a = type_directory) then (-1)%Z else 1%Z.

(** [sortNodes]; [fuel] bounds the depth of the recursion. *)
Fixpoint sortNodes (fuel : nat) (nodes : list DirectoryNode)
  : list DirectoryNode :=
  match fuel with
  | O => nodes
  | S fuel =>
      (λ node,
         match node_type node, node_children node with
         | type_directory, Some children =>
             with_children node (sortNodes fuel children)
         | _, _ => node
         end) <$> Array_sort compare_nodes nodes
  end.

Definition buildDirectoryTree (files : list GeneratedFile)
  : result (list DirectoryNode) :=
  root ← add_files files [];
  Ok (sortNodes (S (heights root)) root).

End tree.

(** The files that the tree offers for selection, top to bottom:
    [renderNode] gives [{filename: node.path, content: node.content}] to
    [onFileSelect] for a file node. *)
Fixpoint leaves_of (node : DirectoryNode) : list GeneratedFile :=
  match node with
  | mkNode _ type path children content =>
      match type with
      | type_file => [{| filename := path; content := default [] content |}]
      | type_directory =>
          match children with
          | None => []
          | Some nodes =>
              (fix leaves nodes :=
                 match nodes with
                 | [] => []
                 | node :: nodes => leaves_of node ++ leaves nodes
                 end) nodes
          end
      end
  end.

Definition leaves (nodes : list DirectoryNode) : list GeneratedFile :=
  concat (leaves_of <$> nodes).

(** A comparison to run [buildDirectoryTree] with: by code units. *)
Fixpoint compare_code_units (a b : jsstring) : Z :=
  match a, b with
  | [], [] => 0%Z
  | [], _ :: _ => (-1)%Z
  | _ :: _, [] => 1%Z
  | c :: a, d :: b =>
      if c <? d then (-1)%Z
      else if d <? c then 1%Z
      else compare_code_units a b
  end.

(** ** What the tree holds *)

(** The node that the names [rest] lead to from a level, through
    directories. *)
Fixpoint walk (rest : list jsstring) (level : list DirectoryNode)
  : option DirectoryNode :=
  match rest with
  | [] => None
  | part :: rest =>
      match list_find (λ node, node_name node = part) level with
      | None => None
      | Some (_, node) =>
          match rest with
          | [] => Some node
          | _ :: _ =>
              match node_children node with
              | Some children => walk rest children
              | None => None
              end
          end
      end
  end.

(** The three classes of [sortNodes]: directories, files whose name
    begins with a full stop, other files. *)
Definition rank (node : DirectoryNode) : nat :=
  match node_type node with
  | type_directory => 0
  | type_file => if startsWith (node_name node) (lit ".") then 1 else 2
  end.

Definition rank_le (a b : DirectoryNode) : Prop := (rank a ≤ rank b)%nat.

(** At every level that is shown, the classes come in order. *)
Fixpoint ordered_node (node : DirectoryNode) : Prop :=
  match node with
  | mkNode _ type _ children _ =>
      match type, children with
      | type_directory, Some nodes =>
          StronglySorted rank_le nodes
          ∧ (fix all nodes :=
               match nodes with
               | [] => True
               | node :: nodes => ordered_node node ∧ all nodes
               end) nodes
      | _, _ => True
      end
  end.

Definition ordered (nodes : list DirectoryNode) : Prop :=
  StronglySorted rank_le nodes ∧ Forall ordered_node nodes.

(** [a] is the path [b], or a path above it. *)
Definition path_prefix (a b : jsstring) : Prop :=
  a = b ∨ ∃ more, b = a ++ slash :: more.

Definition unrelated (a b : jsstring) : Prop :=
  ¬ path_prefix a b ∧ ¬ path_prefix b a.

Fixpoint unrelated_files (files : list GeneratedFile) : Prop :=
  match files with
  | [] => True
  | f :: files =>
      Forall (λ g, unrelated (filename f) (filename g)) files
      ∧ unrelated_files files
  end.

(** A node as [add_parts] makes it below the directories [above]: its path
    is made of their names and its own; a file has no children, a
    directory has children made the same way, with a file among them or
    below them. *)
Inductive shaped : list jsstring → DirectoryNode → Prop :=
  | shaped_file above name content :
      shaped above
        (mkNode name type_file (join slash (above ++ [name])) None content)
  | shaped_directory above name children :
      Forall (shaped (above ++ [name])) children →
      leaves children ≠ [] →
      shaped above
        (mkNode name type_directory (join slash (above ++ [name]))
                (Some children) None).

(** No two nodes of a level have one name, at every level. *)
Fixpoint distinct_node (node : DirectoryNode) : Prop :=
  match node with
  | mkNode _ _ _ children _ =>
      match children with
      | None => True
      | Some nodes =>
          NoDup (node_name <$> nodes)
          ∧ (fix all nodes :=
               match nodes with
               | [] => True
               | node :: nodes => distinct_node node ∧ all nodes
               end) nodes
      end
  end.

Definition distinct (nodes : list DirectoryNode) : Prop :=
  NoDup (node_name <$> nodes) ∧ Forall distinct_node nodes.

(** The path of every node is made of the names of the directories it is
    in, from the top, and of its own name, with a solidus between them. *)
Fixpoint pathed_node (above : list jsstring) (node : DirectoryNode) : Prop :=
  match node with
  | mkNode name _ path children _ =>
      path = join slash (above ++ [name])
      ∧ match children with
        | None => True
        | Some nodes =>
            (fix all nodes :=
               match nodes with
               | [] => True
               | node :: nodes => pathed_node (above ++ [name]) node ∧ all nodes
               end) nodes
        end
  end.

Definition pathed (above : list jsstring) (nodes : list DirectoryNode) : Prop :=
  Forall (pathed_node above) nodes.

(** ** More inputs to run the code on *)


(** A [status.log] of three lines of text, the second one empty. *)
Definition status_lines : list jsstring :=
  [lit "Reading the prompt"; []; lit "Writing src/App.tsx"].

Definition status_files : list GeneratedFile :=
  [{| filename := lit "src/App.tsx"; content := lit "x" |};
   {| filename := lit "status.log"; content := join nl status_lines |}].

Definition tree_files : list GeneratedFile :=
  [{| filename := lit "src/App.tsx"; content := lit "a" |};
   {| filename := lit "README.md"; content := lit "b" |};
   {| filename := lit "src/components/Nav.tsx"; content := lit "c" |};
   {| filename := lit ".gitignore"; content := lit "d" |}].

(** The tree of [tree_files] under [compare_code_units]. *)
Definition tree_of_tree_files : list DirectoryNode :=
  Eval vm_compute in
    match buildDirectoryTree compare_code_units tree_files with
    | Ok tree => tree
    | Throw _ => []
    end.

(** A file, and a file below a directory of the same name. *)
Definition file_a : GeneratedFile :=
  {| filename := lit "a"; content := lit "one" |}.
Definition file_a_b : GeneratedFile :=
  {| filename := lit "a/b"; content := lit "two" |}.

(** * Properties *)

(** ** The built-ins and the code on examples *)

Example split_ex : split nl (lit "a" ++ [nl] ++ lit "bc" ++ [nl]) = [lit "a"; lit "bc"; []].
Proof. reflexivity. Qed.

Example trim_ex : trim (lit "  data: x  ") = lit "data: x".
Proof. reflexivity. Qed.

Example parse_ex1 :
  JSON.parse (dq "{'code':'// a.ts\nx', 'file' : 'typescript', 'n': [1.5e2, true, null]}")
  = Some (JObj [(lit "code", JStr (lit "// a.ts" ++ [nl] ++ lit "x"));
                (lit "file", JStr (lit "typescript"));
                (lit "n", JArr [JNum {| mantissa := 15; exponent := 1 |};
                                JBool true; JNull])]).
Proof. vm_compute. reflexivity. Qed.

Example parse_ex2 : JSON.parse (dq "{'code':'a',}") = None.
Proof. reflexivity. Qed.

Example run_marker :
  generateCodeFromPrompt JSON.parse
    (stream [dq "data: {'code':'// /src/App.tsx\nconst x=1;','fi";
             dq "le':'typescript'}" ++ [nl] ++ unnamed_line ++ [nl]])
  = ([[{| filename := lit "src/App.tsx"; content := lit "const x=1;" |}]],
     Ok {| files := [{| filename := lit "src/App.tsx"; content := lit "const x=1;" |}] |}).
Proof. vm_compute. reflexivity. Qed.

(** ** [split], [pop] and the decoder *)

Lemma split_not_nil sep s : split sep s ≠ [].
Proof.
  destruct s as [|c s]; simpl; [done|].
  destruct (c =? sep); [done|]. by destruct (split sep s).
Qed.

Lemma split_no_sep sep s : sep ∉ s → split sep s = [s].
Proof.
  induction s as [|c s IH]; intros Hs; simpl; [done|].
  apply not_elem_of_cons in Hs as [Hc Hs].
  destruct (N.eqb_spec c sep) as [->|_]; [done|].
  by rewrite IH.
Qed.

Lemma split_app_sep sep a b :
  sep ∉ a → split sep (a ++ sep :: b) = a :: split sep b.
Proof.
  induction a as [|c a IH]; intros Ha; simpl.
  - by rewrite N.eqb_refl.
  - apply not_elem_of_cons in Ha as [Hc Ha].
    destruct (N.eqb_spec c sep) as [->|_]; [done|].
    by rewrite IH.
Qed.

Lemma split_segments sep s : Forall (λ seg, sep ∉ seg) (split sep s).
Proof.
  induction s as [|c s IH]; simpl.
  - repeat constructor. apply not_elem_of_nil.
  - destruct (N.eqb_spec c sep) as [->|Hc].
    + constructor; [apply not_elem_of_nil | done].
    + destruct (split sep s) as [|seg segs]; inversion IH; subst.
      * repeat constructor. apply not_elem_of_cons; split; [congruence|].
        apply not_elem_of_nil.
      * constructor; [|done]. apply not_elem_of_cons; split; [congruence|done].
Qed.

Lemma join_split sep s : join sep (split sep s) = s.
Proof.
  induction s as [|c s IH]; simpl; [done|].
  destruct (N.eqb_spec c sep) as [->|Hc].
  - pose proof (split_not_nil sep s).
    simpl. destruct (split sep s); [done|]. by rewrite IH.
  - destruct (split sep s) as [|seg [|seg' segs]]; simpl in *; by subst.
Qed.

Lemma unlines_cons line lines :
  unlines (line :: lines) = line ++ nl :: unlines lines.
Proof. unfold unlines. simpl. by rewrite <- app_assoc. Qed.

Lemma split_unlines lines r :
  Forall (λ line, nl ∉ line) lines → nl ∉ r →
  split nl (unlines lines ++ r) = lines ++ [r].
Proof.
  intros Hl Hr. induction Hl as [|line lines Hline _ IH].
  - by apply split_no_sep.
  - rewrite unlines_cons, <- app_assoc. simpl.
    by rewrite split_app_sep, IH.
Qed.

Lemma pop_snoc {A} (l : list A) x : pop (l ++ [x]) = (Some x, l).
Proof. unfold pop. by rewrite last_snoc, removelast_last. Qed.

Lemma split_pop s :
  split nl s = complete_lines s ++ [residual s].
Proof.
  unfold complete_lines, residual.
  destruct (split nl s) as [|seg segs] eqn:E using rev_ind.
  - by apply split_not_nil in E.
  - by rewrite pop_snoc.
Qed.

Lemma complete_lines_no_nl s : Forall (λ line, nl ∉ line) (complete_lines s).
Proof.
  pose proof (split_segments nl s) as H. rewrite split_pop in H.
  by apply Forall_app in H as [H _].
Qed.

Lemma residual_no_nl s : nl ∉ residual s.
Proof.
  pose proof (split_segments nl s) as H. rewrite split_pop in H.
  apply Forall_app in H as [_ H]. by inversion H.
Qed.

Lemma unlines_app l1 l2 : unlines (l1 ++ l2) = unlines l1 ++ unlines l2.
Proof. unfold unlines. by rewrite fmap_app, concat_app. Qed.

Lemma unlines_residual s : s = unlines (complete_lines s) ++ residual s.
Proof.
  rewrite <- (join_split nl s) at 1. rewrite split_pop.
  induction (complete_lines s) as [|line lines IH]; simpl; [done|].
  rewrite unlines_cons, <- app_assoc. simpl.
  destruct (lines ++ [residual s]) eqn:E; [by destruct lines|].
  by rewrite IH.
Qed.

Lemma pop_unlines lines r :
  Forall (λ line, nl ∉ line) lines → nl ∉ r →
  complete_lines (unlines lines ++ r) = lines ∧ residual (unlines lines ++ r) = r.
Proof.
  intros Hl Hr. unfold complete_lines, residual.
  by rewrite split_unlines, pop_snoc.
Qed.

Lemma pop_app a b :
  complete_lines (a ++ b) = complete_lines a ++ complete_lines (residual a ++ b)
  ∧ residual (a ++ b) = residual (residual a ++ b).
Proof.
  assert (a ++ b
          = unlines (complete_lines a ++ complete_lines (residual a ++ b))
            ++ residual (residual a ++ b)) as Heq.
  { by rewrite unlines_app, <- app_assoc, <- unlines_residual, app_assoc,
      <- unlines_residual. }
  rewrite Heq at 1 2. apply pop_unlines.
  - apply Forall_app; split; apply complete_lines_no_nl.
  - apply residual_no_nl.
Qed.

Lemma pop_no_nl b : nl ∉ b → complete_lines b = [] ∧ residual b = b.
Proof.
  intros Hb. unfold complete_lines, residual.
  by rewrite split_no_sep.
Qed.

Lemma decode_cons buffer value rest :
  decode buffer (value :: rest)
  = (complete_lines (buffer ++ value)
       ++ (decode (residual (buffer ++ value)) rest).1,
     (decode (residual (buffer ++ value)) rest).2).
Proof.
  unfold complete_lines, residual. simpl.
  by destruct (decode _ rest).
Qed.

Lemma decode_eq buffer reads :
  nl ∉ buffer →
  decode buffer reads
  = (complete_lines (buffer ++ concat reads), residual (buffer ++ concat reads)).
Proof.
  revert buffer. induction reads as [|value rest IH]; intros buffer Hb.
  - simpl. rewrite app_nil_r. by destruct (pop_no_nl buffer Hb) as [-> ->].
  - rewrite decode_cons, IH by apply residual_no_nl. simpl.
    rewrite app_assoc.
    by destruct (pop_app (buffer ++ value) (concat rest)) as [-> ->].
Qed.

Lemma pop_single_line line :
  nl ∉ line →
  complete_lines (line ++ [nl]) = [line] ∧ residual (line ++ [nl]) = [].
Proof.
  intros Hline.
  assert (line ++ [nl] = unlines [line] ++ []) as ->
    by (unfold unlines; simpl; by rewrite !app_nil_r).
  apply pop_unlines; [by repeat constructor | apply not_elem_of_nil].
Qed.

Lemma residual_of_complete body :
  body = [] ∨ last body = Some nl → residual body = [].
Proof.
  intros [->|Hlast]; [done|].
  destruct (residual body) as [|c r] eqn:E; [done|].
  rewrite (unlines_residual body), E, last_app_cons in Hlast.
  apply last_Some_elem_of in Hlast.
  pose proof (residual_no_nl body) as Hr. by rewrite E in Hr.
Qed.

(** ** [trim] and [startsWith] *)

Lemma trimStart_head s c : head (trimStart s) = Some c → is_white_space c = false.
Proof.
  induction s as [|d s IH]; simpl; [done|].
  destruct (is_white_space d) eqn:E; [done|].
  simpl. by intros [= <-].
Qed.

Lemma trimStart_elem_of s c :
  c ∈ s → is_white_space c = false → c ∈ trimStart s.
Proof.
  intros Hc Hws. induction s as [|d s IH]; simpl; [done|].
  destruct (is_white_space d) eqn:E; [|done].
  apply elem_of_cons in Hc as [->|Hc]; [congruence|auto].
Qed.

Lemma trimEnd_last s c : last (trimEnd s) = Some c → is_white_space c = false.
Proof. unfold trimEnd. rewrite last_reverse. apply trimStart_head. Qed.

Lemma trimEnd_elem_of s c :
  c ∈ s → is_white_space c = false → c ∈ trimEnd s.
Proof.
  intros Hc Hws. unfold trimEnd.
  apply elem_of_reverse, trimStart_elem_of; [|done]. by apply elem_of_reverse.
Qed.

Lemma trim_last s c : last (trim s) = Some c → is_white_space c = false.
Proof. apply trimEnd_last. Qed.

Lemma trim_elem_of s c : c ∈ s → is_white_space c = false → c ∈ trim s.
Proof.
  intros Hc Hws. unfold trim.
  apply trimEnd_elem_of; [|done]. by apply trimStart_elem_of.
Qed.

Lemma startsWith_app s p : startsWith s p = true ↔ ∃ r, s = p ++ r.
Proof.
  revert s. induction p as [|c p IH]; intros s; simpl.
  - split; [intros _; by exists s|done].
  - destruct s as [|d s].
    + split; [done|]. by intros [r ?].
    + rewrite andb_true_iff, N.eqb_eq, IH. split.
      * intros [-> [r ->]]. by exists r.
      * intros [r [= -> ->]]. eauto.
Qed.

(** A line that passes the filter has a payload: the test for an empty
    [jsonStr] in the [try] block never succeeds. *)
Lemma forwarded_payload line : forwarded line = true → payload line ≠ [].
Proof.
  unfold forwarded, payload. intros H.
  apply negb_true_iff, orb_false_iff in H as [_ H].
  apply negb_false_iff, startsWith_app in H as [r Hr].
  destruct (last (trim line)) as [c|] eqn:Hlast.
  - pose proof (trim_last _ _ Hlast) as Hws.
    rewrite Hr in Hlast |- *.
    destruct r as [|d r] using rev_ind.
    + vm_compute in Hlast. injection Hlast as <-. done.
    + rewrite app_assoc, last_snoc in Hlast. injection Hlast as <-.
      intros Hnil.
      assert (d ∈ trim (slice 5 (lit "data: " ++ r ++ [d]))) as Hin.
      { apply trim_elem_of; [|done].
        change (d ∈ 32 :: r ++ [d]). set_solver. }
      rewrite Hnil in Hin. by apply not_elem_of_nil in Hin.
  - apply last_None in Hlast. by rewrite Hlast in Hr.
Qed.

(** ** The loops *)

Section generate_properties.

Context (JSON_parse : jsstring → option json).


Lemma for_lines_app st l1 l2 :
  for_lines JSON_parse st (l1 ++ l2)
  = continue_with (for_lines JSON_parse st l1) (λ st, for_lines JSON_parse st l2).
Proof.
  revert st. induction l1 as [|line l1 IH]; intros st; simpl; [done|].
  destruct (loop_body JSON_parse (st_files st) line) as [[[files currentFiles]|]|e]; auto.
Qed.

Lemma while_read_cons st buffer value rest :
  while_read JSON_parse st buffer (value :: rest)
  = continue_with (for_lines JSON_parse st (complete_lines (buffer ++ value)))
      (λ st, while_read JSON_parse st (residual (buffer ++ value)) rest).
Proof. reflexivity. Qed.

Lemma while_read_decode st buffer reads :
  while_read JSON_parse st buffer reads = for_lines JSON_parse st (decode buffer reads).1.
Proof.
  revert st buffer. induction reads as [|value rest IH]; intros st buffer.
  - done.
  - rewrite while_read_cons, decode_cons. simpl. rewrite for_lines_app.
    destruct (for_lines JSON_parse st _) as [st' [e|]]; simpl; auto.
Qed.

Lemma while_read_concat st reads :
  while_read JSON_parse st [] reads = for_lines JSON_parse st (complete_lines (concat reads)).
Proof.
  rewrite while_read_decode, decode_eq by apply not_elem_of_nil. done.
Qed.

Lemma generate_concat response reads :
  generateCodeFromPrompt JSON_parse (with_body response reads)
  = generateCodeFromPrompt JSON_parse (with_body response [concat reads]).
Proof.
  unfold generateCodeFromPrompt, with_body. cbn [ok body].
  destruct (negb (ok response)); [done|].
  rewrite !while_read_concat. simpl. by rewrite app_nil_r.
Qed.

(** C2. A line fed to the decoder in any number of fragments comes out as
    one line, the same as when it is fed as one fragment, and the loop
    handles it as that line; until the newline has arrived the buffer
    holds what was read. *)
Theorem decoder_rechunk_single_line st line reads :
  nl ∉ line → concat reads = line ++ [nl] →
  decode [] reads = ([line], [])
  ∧ decode [] [line ++ [nl]] = ([line], [])
  ∧ while_read JSON_parse st [] reads = for_lines JSON_parse st [line]
  ∧ ∀ pre post, reads = pre ++ post → nl ∉ concat pre →
      decode [] pre = ([], concat pre).
Proof.
  intros Hline Hreads.
  destruct (pop_single_line line Hline) as [Hc Hr].
  repeat split.
  - rewrite decode_eq by apply not_elem_of_nil. simpl.
    by rewrite Hreads, Hc, Hr.
  - rewrite decode_eq by apply not_elem_of_nil. simpl.
    by rewrite app_nil_r, Hc, Hr.
  - by rewrite while_read_concat, Hreads, Hc.
  - intros pre post _ Hpre.
    rewrite decode_eq by apply not_elem_of_nil. simpl.
    by destruct (pop_no_nl _ Hpre) as [-> ->].
Qed.

(** C6. The text after the last newline of the stream is left in the
    buffer at the end of input and dropped: the lines decoded, the calls
    of the callback and the outcome are those of the stream cut after its
    last newline. *)
Theorem trailing_partial_line_discarded response reads terminated tail :
  concat reads = terminated ++ tail → nl ∉ tail →
  terminated = [] ∨ last terminated = Some nl →
  decode [] reads = (complete_lines terminated, tail)
  ∧ decode [] [terminated] = (complete_lines terminated, [])
  ∧ generateCodeFromPrompt JSON_parse (with_body response reads)
    = generateCodeFromPrompt JSON_parse (with_body response [terminated]).
Proof.
  intros Hreads Htail Hterm.
  apply residual_of_complete in Hterm.
  pose proof (unlines_residual terminated) as Hb.
  rewrite Hterm, app_nil_r in Hb.
  destruct (pop_unlines (complete_lines terminated) tail
              (complete_lines_no_nl terminated) Htail) as [Hc Hr].
  rewrite <- Hb in Hc, Hr.
  repeat split.
  - rewrite decode_eq by apply not_elem_of_nil. simpl.
    by rewrite Hreads, Hc, Hr.
  - rewrite decode_eq by apply not_elem_of_nil. simpl.
    by rewrite app_nil_r, Hterm.
  - rewrite generate_concat. unfold generateCodeFromPrompt, with_body.
    cbn [ok body]. destruct (negb (ok response)); [done|].
    rewrite !while_read_concat. simpl. by rewrite !app_nil_r, Hreads, Hc.
Qed.

(** *** One line *)


Lemma loop_body_ignored files line :
  forwarded line = false → loop_body JSON_parse files line = Ok None.
Proof.
  unfold forwarded, loop_body. intros H.
  apply negb_false_iff in H. by rewrite H.
Qed.

Lemma loop_body_forwarded files line :
  forwarded line = true →
  loop_body JSON_parse files line
  = catch_block match JSON_parse (payload line) with
                | None => Throw SyntaxError
                | Some chunk => apply_chunk files chunk
                end.
Proof.
  intros H. pose proof (forwarded_payload line H) as Hp.
  unfold forwarded, loop_body in *.
  apply negb_true_iff in H. rewrite H.
  unfold try_block. fold (payload line).
  by rewrite bool_decide_eq_false_2.
Qed.

Lemma catch_block_exn {A} (r : result A) e :
  catch_block r = Throw e → e = parse_error.
Proof. destruct r; simpl; [done|]. by intros [= <-]. Qed.

Lemma loop_body_exn files line e :
  loop_body JSON_parse files line = Throw e → e = parse_error.
Proof.
  destruct (forwarded line) eqn:E.
  - rewrite loop_body_forwarded by done. apply catch_block_exn.
  - by rewrite loop_body_ignored.
Qed.

Lemma for_lines_exn st lines st' e :
  for_lines JSON_parse st lines = (st', Some e) → e = parse_error.
Proof.
  revert st. induction lines as [|line rest IH]; intros st; simpl; [done|].
  destruct (loop_body JSON_parse (st_files st) line) as [[[fs currentFiles]|]|e'] eqn:E;
    eauto.
  intros [= <- <-]. by eapply loop_body_exn.
Qed.

(** The [try] block throws exactly on the rejected parse results. *)
Lemma apply_chunk_throws files chunk :
  (∃ e, apply_chunk files chunk = Throw e) ↔ rejected (Some chunk) = true.
Proof.
  unfold apply_chunk, rejected, has_marker.
  destruct chunk as [| | | | |members]; simpl;
    try (split; [done|intros _; by eexists]).
  destruct (member (lit "code") members) as [[| | |code| |]|]; simpl;
    try (split; [done|intros _; by eexists]).
  destruct (_ && _); simpl.
  { split; [by intros [? ?]|done]. }
  destruct (member (lit "file") members) as [[| | |file| |]|]; simpl;
    try (split; [done|intros _; by eexists]).
  split; [|done]. intros [e He]. by destruct (bool_decide _).
Qed.

Lemma loop_body_rejected files line :
  forwarded line = true → rejected (JSON_parse (payload line)) = true →
  loop_body JSON_parse files line = Throw parse_error.
Proof.
  intros Hf Hr. rewrite loop_body_forwarded by done.
  destruct (JSON_parse (payload line)) as [chunk|]; [|done].
  apply (apply_chunk_throws files) in Hr as [e ->]. done.
Qed.

(** C4. A chunk whose [file] is ["typescript"] and whose code does not
    begin with [//] is discarded: the table and the calls of the callback
    stay as they were, and the loop goes on with the next line. *)
Theorem typescript_without_marker_discarded st line rest chunk code :
  forwarded line = true →
  JSON_parse (payload line) = Some chunk →
  get (Some chunk) (lit "file") = Ok (Some (JStr (lit "typescript"))) →
  get (Some chunk) (lit "code") = Ok (Some (JStr code)) →
  startsWith (default [] (head (split nl code))) (lit "//") = false →
  loop_body JSON_parse (st_files st) line = Ok None
  ∧ for_lines JSON_parse st (line :: rest) = for_lines JSON_parse st rest.
Proof.
  intros Hf Hparse Hfile Hcode Hmarker.
  assert (loop_body JSON_parse (st_files st) line = Ok None) as Hbody.
  { rewrite loop_body_forwarded, Hparse by done.
    unfold apply_chunk. rewrite Hfile, Hcode. cbn [mbind result_bind].
    by rewrite Hmarker, andb_false_r. }
  split; [done|]. simpl. by rewrite Hbody.
Qed.

(** C7, as the code has it. The filter looks at the trimmed line: a line
    is forwarded exactly when, once trimmed, it starts with ["data: "].
    A line that is not forwarded changes nothing and throws nothing; a
    forwarded one has a non-empty payload, which goes to [JSON.parse]. *)
Theorem data_line_filter st line rest :
  forwarded line = startsWith (trim line) (lit "data: ")
  ∧ (forwarded line = false →
     for_lines JSON_parse st (line :: rest) = for_lines JSON_parse st rest)
  ∧ (forwarded line = true →
     trim line ≠ [] ∧ payload line ≠ []
     ∧ loop_body JSON_parse (st_files st) line
       = catch_block match JSON_parse (payload line) with
                     | None => Throw SyntaxError
                     | Some chunk => apply_chunk (st_files st) chunk
                     end).
Proof.
  repeat split.
  - unfold forwarded. case_bool_decide as Ht; simpl.
    + by rewrite Ht.
    + by rewrite negb_involutive.
  - intros H. simpl. by rewrite loop_body_ignored.
  - unfold forwarded in H. intros Ht. by rewrite Ht in H.
  - by apply forwarded_payload.
  - by apply loop_body_forwarded.
Qed.

(** C3, as the code has it. A forwarded line whose payload does not
    parse, or whose [code] is not a string, or that has no marker and no
    string [file], ends the call with the one error
    ["Failed to parse server response"]; the callback has been called for
    the lines before it and for nothing after. *)
Theorem rejected_payload_aborts response reads before bad after :
  ok response = true →
  concat reads = before ++ bad ++ nl :: after →
  before = [] ∨ last before = Some nl →
  nl ∉ bad →
  forwarded bad = true →
  rejected (JSON_parse (payload bad)) = true →
  (generateCodeFromPrompt JSON_parse (with_body response reads)).2
  = Throw parse_error
  ∧ (generateCodeFromPrompt JSON_parse (with_body response reads)).1
    = (generateCodeFromPrompt JSON_parse (with_body response [before])).1.
Proof.
  intros Hok Hreads Hbefore Hbad Hf Hr.
  assert (complete_lines (concat reads)
          = complete_lines before ++ bad :: complete_lines after) as Hlines.
  { rewrite Hreads.
    destruct (pop_app before (bad ++ nl :: after)) as [-> _].
    rewrite (residual_of_complete before Hbefore). simpl.
    change (bad ++ nl :: after) with (bad ++ [nl] ++ after).
    rewrite app_assoc.
    destruct (pop_app (bad ++ [nl]) after) as [-> _].
    by destruct (pop_single_line bad Hbad) as [-> ->]. }
  rewrite (generate_concat response reads).
  unfold generateCodeFromPrompt, with_body. cbn [ok body]. rewrite Hok.
  cbn [negb]. rewrite !while_read_concat. simpl. rewrite !app_nil_r.
  rewrite Hlines, for_lines_app.
  destruct (for_lines JSON_parse _ (complete_lines before)) as [st [e|]] eqn:E;
    simpl.
  - by rewrite (for_lines_exn _ _ _ _ E).
  - by rewrite (loop_body_rejected _ _ Hf Hr).
Qed.

(** *** Snapshots *)

Lemma emitted_as_entries table : Forall2 emitted_as table (entries_to_files table).
Proof.
  induction table as [|[k v] table IH]; simpl; constructor; [|done].
  split; [done|]. simpl.
  destruct k as [|c k]; [by right|].
  destruct (decide (c = 47)) as [->|Hc]; [left; by exists k|].
  right. split; [by intros [= ?]|].
  unfold strip_leading_slash.
  by repeat (match goal with |- context [match ?x with _ => _ end] => destruct x end).
Qed.

Lemma Map_set_keys (m : Map) key v :
  (Map_set m key v).*1 = if decide (key ∈ m.*1) then m.*1 else m.*1 ++ [key].
Proof.
  induction m as [|[k v'] m IH]; [done|].
  cbn [Map_set]. destruct (decide (k = key)) as [->|Hk];
    rewrite !fmap_cons; cbn [fst].
  - rewrite decide_True by left. done.
  - rewrite IH. destruct (decide (key ∈ m.*1)) as [Hin|Hin].
    + rewrite decide_True by (by right). done.
    + rewrite decide_False; [done|].
      intros [?|?]%elem_of_cons; congruence.
Qed.

Lemma Map_set_NoDup (m : Map) key v : NoDup m.*1 → NoDup (Map_set m key v).*1.
Proof.
  intros Hm. rewrite Map_set_keys. case_decide; [done|].
  apply NoDup_app. repeat split; [done| |apply NoDup_singleton].
  intros x Hx ->%list_elem_of_singleton. done.
Qed.

Lemma apply_chunk_applied files chunk files' currentFiles :
  apply_chunk files chunk = Ok (Some (files', currentFiles)) →
  currentFiles = entries_to_files files'
  ∧ ∃ filename content, files' = Map_set files filename content.
Proof.
  unfold apply_chunk.
  destruct (get (Some chunk) (lit "file")) as [file|]; [|done].
  destruct (get (Some chunk) (lit "code")) as [[[| | |code| |]|]|]; try done.
  cbn [mbind result_bind].
  destruct (_ && _).
  { intros [= <- <-]. eauto. }
  destruct (strict_equals _ _); [done|].
  destruct file as [[| | |file| |]|]; try done.
  intros [= <- <-]. eauto.
Qed.

Lemma loop_body_applied files line files' currentFiles :
  loop_body JSON_parse files line = Ok (Some (files', currentFiles)) →
  currentFiles = entries_to_files files'
  ∧ ∃ filename content, files' = Map_set files filename content.
Proof.
  destruct (forwarded line) eqn:E.
  - rewrite loop_body_forwarded by done.
    destruct (JSON_parse (payload line)) as [chunk|]; [|done].
    destruct (apply_chunk files chunk) as [r|] eqn:Ha; [|done].
    simpl. intros [= ->]. by eapply apply_chunk_applied.
  - by rewrite loop_body_ignored.
Qed.

Lemma for_lines_inv st lines :
  snapshot_inv st → snapshot_inv (for_lines JSON_parse st lines).1.
Proof.
  revert st. induction lines as [|line rest IH]; intros st Hst; simpl; [done|].
  destruct (loop_body JSON_parse (st_files st) line)
    as [[[files' currentFiles]|]|e] eqn:E; auto.
  apply IH. apply loop_body_applied in E as [-> (filename & content & ->)].
  destruct Hst as (Hnd & Hcalls & _).
  repeat split; simpl.
  - by apply Map_set_NoDup.
  - apply Forall_app. split; [done|]. repeat constructor.
    eexists. split; [|done]. by apply Map_set_NoDup.
  - right. by rewrite last_snoc.
Qed.

Lemma generate_inv response :
  ∃ st,
    snapshot_inv st
    ∧ (generateCodeFromPrompt JSON_parse response).1 = st_calls st
    ∧ ∀ r, (generateCodeFromPrompt JSON_parse response).2 = Ok r →
           files r = entries_to_files (st_files st).
Proof.
  unfold generateCodeFromPrompt.
  assert (snapshot_inv {| st_files := []; st_calls := [] |}) as Hinit.
  { repeat split; simpl; [constructor|constructor|by left]. }
  destruct (negb (ok response));
    [by exists {| st_files := []; st_calls := [] |}|].
  destruct (body response) as [reads|];
    [|by exists {| st_files := []; st_calls := [] |}].
  rewrite while_read_decode.
  pose proof (for_lines_inv _ (decode [] reads).1 Hinit) as Hinv.
  destruct (for_lines JSON_parse _ _) as [st [e|]]; simpl in *.
  - by exists st.
  - exists st. split; [done|]. split; [done|]. by intros r [= <-].
Qed.

Lemma emitted_as_App c file :
  emitted_as (lit "/src/App.tsx", c) file →
  file = {| filename := lit "src/App.tsx"; content := c |}.
Proof.
  destruct file as [name text].
  intros [Htext [(rest & Hkey & Hname) | [Hhead _]]];
    cbn [fst snd filename content] in *.
  - change (lit "/src/App.tsx") with (47 :: lit "src/App.tsx") in Hkey.
    injection Hkey as <-. by subst.
  - by destruct Hhead.
Qed.

Lemma for_lines_tables_calls st lines :
  st_calls (for_lines JSON_parse st lines).1
  = st_calls st
    ++ (entries_to_files <$> for_lines_tables JSON_parse (st_files st) lines)
  ∧ st_files (for_lines JSON_parse st lines).1
    = default (st_files st)
        (last (for_lines_tables JSON_parse (st_files st) lines)).
Proof.
  revert st. induction lines as [|line rest IH]; intros st;
    cbn [for_lines for_lines_tables].
  { by rewrite app_nil_r. }
  destruct (loop_body JSON_parse (st_files st) line)
    as [[[files' currentFiles]|]|e] eqn:E.
  - apply loop_body_applied in E as [-> _].
    destruct (IH {| st_files := files';
                    st_calls := st_calls st ++ [entries_to_files files'] |})
      as [Hcalls Hfiles].
    cbn [st_files st_calls] in Hcalls, Hfiles. split.
    + by rewrite Hcalls, fmap_cons, <- app_assoc.
    + rewrite Hfiles, last_cons.
      by destruct (last (for_lines_tables JSON_parse files' rest)).
  - apply IH.
  - by rewrite app_nil_r.
Qed.

Lemma while_read_tables_calls st buffer reads :
  st_calls (while_read JSON_parse st buffer reads).1
  = st_calls st
    ++ (entries_to_files <$> while_read_tables JSON_parse st buffer reads)
  ∧ st_files (while_read JSON_parse st buffer reads).1
    = default (st_files st)
        (last (while_read_tables JSON_parse st buffer reads)).
Proof.
  revert st buffer. induction reads as [|value rest IH]; intros st buffer;
    cbn [while_read while_read_tables].
  { by rewrite app_nil_r. }
  destruct (pop (split nl (buffer ++ value))) as [last_line lines].
  destruct (for_lines_tables_calls st lines) as [Hcalls Hfiles].
  destruct (for_lines JSON_parse st lines) as [st' [e|]];
    cbn [fst] in Hcalls, Hfiles.
  - by rewrite app_nil_r.
  - destruct (IH st' (default [] last_line)) as [Hcalls' Hfiles'].
    split.
    + by rewrite Hcalls', Hcalls, fmap_app, <- app_assoc.
    + rewrite Hfiles', Hfiles, last_app.
      by destruct (last (while_read_tables JSON_parse st' _ rest)).
Qed.

(** C5. At every call of the callback, its argument lists the entries of
    the table as it is at that call, in order: the content as it is, the
    filename with one leading slash removed if the key has one and the key
    itself otherwise.  The array that is returned lists in this way the
    entries of the table as it is at the end, which is the table of the
    last call, or empty when there was none.  The key [/src/App.tsx] shows
    as [src/App.tsx] and in no other way. *)
Theorem snapshots_strip_leading_slash response reads :
  ok response = true →
  body response = Some reads →
  Forall2 (Forall2 emitted_as)
    (while_read_tables JSON_parse initial [] reads)
    (generateCodeFromPrompt JSON_parse response).1
  ∧ (∀ r, (generateCodeFromPrompt JSON_parse response).2 = Ok r →
          Forall2 emitted_as
            (st_files (while_read JSON_parse initial [] reads).1) (files r))
  ∧ st_files (while_read JSON_parse initial [] reads).1
    = default [] (last (while_read_tables JSON_parse initial [] reads))
  ∧ ∀ c file, emitted_as (lit "/src/App.tsx", c) file →
              file = {| filename := lit "src/App.tsx"; content := c |}.
Proof.
  intros Hok Hbody.
  destruct (while_read_tables_calls initial [] reads) as [Hcalls Hfiles].
  unfold generateCodeFromPrompt. rewrite Hok, Hbody. cbn [negb].
  fold initial.
  assert (Forall2 (Forall2 emitted_as)
            (while_read_tables JSON_parse initial [] reads)
            (entries_to_files <$> while_read_tables JSON_parse initial [] reads))
    as Htables.
  { apply Forall2_fmap_r, Forall_Forall2_diag, Forall_forall.
    intros table _. apply emitted_as_entries. }
  destruct (while_read JSON_parse initial [] reads) as [st [e|]];
    cbn [fst snd st_calls st_files initial] in *; rewrite Hcalls, app_nil_l.
  - split; [done|]. split; [done|]. split; [done|]. apply emitted_as_App.
  - split; [done|]. split; [|split; [done|apply emitted_as_App]].
    intros r [= <-]. apply emitted_as_entries.
Qed.

(** C10. When the call returns and the callback has been called, the
    array returned is the one the last call of the callback got. *)
Theorem returned_files_are_last_snapshot response r :
  (generateCodeFromPrompt JSON_parse response).2 = Ok r →
  (generateCodeFromPrompt JSON_parse response).1 ≠ [] →
  last (generateCodeFromPrompt JSON_parse response).1 = Some (files r).
Proof.
  intros Hret Hcalls.
  destruct (generate_inv response) as (st & (_ & _ & Hlast) & Hc & Hout).
  rewrite (Hout _ Hret). rewrite Hc in *. by destruct Hlast.
Qed.

(** *** A response that is not a success *)

(** C8, as the code has it. When [response.ok] is false the call throws
    without a look at the body and without a call of the callback.  The
    error is made from the [detail] member of the JSON body when there is
    one and it is truthy, so its message is [detail] when that is a
    non-empty string; otherwise the message is
    ["Failed to generate code: "] followed by the status text. *)
Theorem non_success_status_throws response :
  ok response = false →
  let detail := get_optional (json_body response) (lit "detail") in
  (∀ reads, generateCodeFromPrompt JSON_parse (with_body response reads)
            = generateCodeFromPrompt JSON_parse response)
  ∧ (generateCodeFromPrompt JSON_parse response).1 = []
  ∧ (∀ d, detail = Some d → ToBoolean detail = true →
          (generateCodeFromPrompt JSON_parse response).2 = Throw (Error d))
  ∧ (∀ s, detail = Some (JStr s) → s ≠ [] →
          (generateCodeFromPrompt JSON_parse response).2 = Throw (Error (JStr s)))
  ∧ (ToBoolean detail = false →
     (generateCodeFromPrompt JSON_parse response).2
     = Throw (Error (JStr (lit "Failed to generate code: " ++ statusText response)))).
Proof.
  intros Hok detail.
  assert (get_optional (Some (default JNull (json_body response))) (lit "detail")
          = detail) as Hdetail by (by destruct (json_body response)).
  unfold generateCodeFromPrompt, with_body. cbn [ok statusText json_body body].
  rewrite Hok. cbn [negb fst snd]. rewrite Hdetail.
  split; [done|]. split; [done|]. split; [|split].
  - intros d Hd Ht. by rewrite Ht, Hd.
  - intros c Hd Hc. rewrite Hd. simpl. by rewrite bool_decide_eq_true_2.
  - by intros ->.
Qed.

End generate_properties.

(** ** The archive *)

(** The object after the calls of [zip.file]: a file under every filename
    of the list other than [status.log], with the content of the last file
    of that name. *)
Lemma JSZip_files_lookup (fs : list GeneratedFile) (name : jsstring) :
  foldl (λ zip file,
           if bool_decide (filename file ≠ lit "status.log")
           then JSZip_file zip (filename file) (content file)
           else zip)
        ∅ fs !! name
  = if bool_decide (name = lit "status.log") then None
    else content <$> last (filter (λ f, filename f = name) fs).
Proof.
  unfold JSZip_file.
  induction fs as [|f fs IH] using rev_ind.
  - simpl. rewrite lookup_empty. by case_bool_decide.
  - rewrite foldl_snoc, filter_app, filter_cons, filter_nil.
    destruct (decide (filename f = name)) as [<-|Hf].
    + destruct (decide (filename f = lit "status.log")) as [Hlog|Hlog].
      * rewrite (bool_decide_eq_false_2 (_ ≠ _)) by auto.
        rewrite IH. by rewrite !bool_decide_eq_true_2.
      * rewrite (bool_decide_eq_true_2 (_ ≠ _)) by done.
        rewrite lookup_insert_eq, last_snoc.
        by rewrite bool_decide_eq_false_2.
    + rewrite app_nil_r, <- IH.
      destruct (bool_decide (filename f ≠ lit "status.log")); [|done].
      by rewrite lookup_insert_ne.
Qed.

(** C9, as the code has it. The archive holds a file under every filename
    of the list other than [status.log] and the empty filename, and under
    no other name; its content is that of the last file of the list with
    that filename. *)
Theorem archive_contents (fs : list GeneratedFile) (name : jsstring) :
  handleDownload fs !! name
  = if bool_decide (name = lit "status.log") || bool_decide (name = [])
    then None
    else content <$> last (filter (λ f, filename f = name) fs).
Proof.
  unfold handleDownload, JSZip_generateAsync. cbv zeta.
  destruct (decide (name = [])) as [->|Hname].
  - rewrite lookup_delete_eq, (bool_decide_eq_true_2 ([] = [])) by done.
    by rewrite orb_true_r.
  - rewrite lookup_delete_ne by done. rewrite JSZip_files_lookup.
    rewrite (bool_decide_eq_false_2 (name = [])) by done.
    by rewrite orb_false_r.
Qed.

(** ** What a chunk adds to the table *)

Lemma Map_get_set_eq (m : Map) key v : Map_get (Map_set m key v) key = Some v.
Proof.
  induction m as [|[k v'] m IH]; simpl.
  - by rewrite decide_True.
  - destruct (decide (k = key)) as [->|Hk]; simpl.
    + by rewrite decide_True.
    + by rewrite decide_False.
Qed.

Lemma Map_get_set_ne (m : Map) key other v :
  other ≠ key → Map_get (Map_set m key v) other = Map_get m other.
Proof.
  intros Hne. induction m as [|[k v'] m IH]; simpl.
  - by rewrite decide_False.
  - destruct (decide (k = key)) as [->|Hk]; simpl.
    + by rewrite !decide_False.
    + by rewrite IH.
Qed.

(** The content a chunk adds is its code from after the first newline on;
    nothing, when the code has one line only. *)
Lemma join_tail_split firstLine rest :
  nl ∉ firstLine →
  join nl (tail (split nl (firstLine ++ nl :: rest))) = rest
  ∧ join nl (tail (split nl firstLine)) = [].
Proof.
  intros H. split.
  - rewrite split_app_sep by done. simpl. apply join_split.
  - by rewrite split_no_sep.
Qed.

(** A chunk with a string [code] and a string [file] that is not discarded
    goes to the file its marker names, or to [file] when it has no marker;
    in both cases what is appended is the code without its first line. *)
Lemma apply_chunk_accumulates files chunk code file :
  get (Some chunk) (lit "code") = Ok (Some (JStr code)) →
  get (Some chunk) (lit "file") = Ok (Some (JStr file)) →
  has_marker code = true ∨ file ≠ lit "typescript" →
  ∃ files',
    apply_chunk files chunk = Ok (Some (files', entries_to_files files'))
    ∧ Map_get files' (resolved_filename code file)
      = Some (default [] (Map_get files (resolved_filename code file))
              ++ appended code)
    ∧ ∀ other, other ≠ resolved_filename code file →
               Map_get files' other = Map_get files other.
Proof.
  intros Hcode Hfile H. unfold apply_chunk, resolved_filename, appended.
  rewrite Hfile, Hcode. cbn [mbind result_bind].
  change (bool_decide (default [] (head (split nl code)) ≠ [])
          && startsWith (default [] (head (split nl code))) (lit "//"))
    with (has_marker code).
  destruct (has_marker code).
  - eexists. split; [done|]. split.
    + apply Map_get_set_eq.
    + intros other Hne. by apply Map_get_set_ne.
  - destruct H as [?|Hne]; [done|]. simpl.
    rewrite bool_decide_eq_false_2 by done.
    eexists. split; [done|]. split.
    + apply Map_get_set_eq.
    + intros other Hother. by apply Map_get_set_ne.
Qed.

Section accumulation.

Context (JSON_parse : jsstring → option json).

(** Over lines that carry chunks for one file, the loop does not throw and
    the file grows by what the chunks append, in the order of the lines:
    each code without its first line, marker or not. *)
Lemma accumulated_content st lines codes f :
  Forall2 (chunk_line JSON_parse f) lines codes →
  ∃ st',
    for_lines JSON_parse st lines = (st', None)
    ∧ default [] (Map_get (st_files st') f)
      = default [] (Map_get (st_files st) f) ++ concat (appended <$> codes).
Proof.
  intros H. revert st.
  induction H as [|line code lines codes Hline _ IH]; intros st.
  - exists st. split; [done|]. simpl. by rewrite app_nil_r.
  - destruct Hline as (Hf & chunk & file & Hparse & Hcode & Hfile & Hok & <-).
    destruct (apply_chunk_accumulates (st_files st) chunk code file
                Hcode Hfile Hok) as (files' & Happly & Hget & _).
    cbn [for_lines]. rewrite (loop_body_forwarded _ _ _ Hf), Hparse, Happly.
    cbn [catch_block].
    destruct (IH {| st_files := files';
                    st_calls := st_calls st ++ [entries_to_files files'] |})
      as (st' & Hrun & Hcontent).
    exists st'. split; [done|].
    rewrite Hcontent. cbn [st_files]. rewrite Hget. simpl.
    by rewrite <- app_assoc.
Qed.

End accumulation.

(** ** The code on concrete streams *)

(** C1. A chunk with no marker line and a [file] of its own is stored
    under [file] without its first line: of the code
    [const a=1;\nconst b=2;] sent for [src/a.ts], only [const b=2;] is
    kept, where the whole code was to be kept. *)
Theorem first_line_dropped_without_marker :
  generateCodeFromPrompt JSON.parse (stream [two_line_chunk ++ [nl]])
  = ([[{| filename := lit "src/a.ts"; content := lit "const b=2;" |}]],
     Ok {| files := [{| filename := lit "src/a.ts";
                        content := lit "const b=2;" |}] |}).
Proof. vm_compute. reflexivity. Qed.

(** C3. The payload [{"code":"// a.ts\nx"}] has no [file], yet the call
    does not fail: the chunk is stored under the name of its marker. *)
Lemma missing_file_accepted :
  (∃ chunk, JSON.parse (payload no_file_line) = Some chunk
            ∧ expected_shape chunk = false)
  ∧ generateCodeFromPrompt JSON.parse (stream [no_file_line ++ [nl]])
    = ([a_files], Ok {| files := a_files |}).
Proof.
  split.
  - eexists. split; [vm_compute; reflexivity|]. vm_compute. reflexivity.
  - vm_compute. reflexivity.
Qed.

(** C7. A line that begins with spaces does not have the prefix
    ["data: "], yet it is forwarded and its chunk is stored. *)
Lemma indented_data_line_forwarded :
  ¬ (forwarded indented_line = true
     ↔ trim indented_line ≠ [] ∧ startsWith indented_line (lit "data: ") = true)
  ∧ generateCodeFromPrompt JSON.parse (stream [indented_line ++ [nl]])
    = ([a_files], Ok {| files := a_files |}).
Proof.
  split.
  - intros [H _]. destruct H as [_ H]; [vm_compute; reflexivity|].
    vm_compute in H. discriminate H.
  - vm_compute. reflexivity.
Qed.

(** C8. With no JSON body the message is not the status text [Not Found]
    but ["Failed to generate code: Not Found"]. *)
Lemma status_text_is_prefixed :
  generateCodeFromPrompt JSON.parse not_found
  = ([], Throw (Error (JStr (lit "Failed to generate code: Not Found"))))
  ∧ (generateCodeFromPrompt JSON.parse not_found).2
    ≠ Throw (Error (JStr (statusText not_found))).
Proof.
  split.
  - vm_compute. reflexivity.
  - vm_compute. discriminate.
Qed.

(** C9. The table keys [/a.ts] and [a.ts] give two files named [a.ts];
    the archive holds one, with the content of the second. *)
Lemma archive_keeps_last_of_a_name :
  (generateCodeFromPrompt JSON.parse (stream slash_reads)).2
  = Ok {| files := slash_files |}
  ∧ ¬ (∀ f, f ∈ slash_files → filename f ≠ lit "status.log" →
            handleDownload slash_files !! filename f = Some (content f)).
Proof.
  split.
  - vm_compute. reflexivity.
  - intros H.
    specialize (H {| filename := lit "a.ts"; content := lit "one" |}
                  ltac:(left) ltac:(vm_compute; discriminate)).
    vm_compute in H. discriminate H.
Qed.

(** A chunk whose marker is the bare [//] goes to the file with the empty
    name.  The call returns that file, and the archive does not hold it. *)
Lemma empty_filename_not_archived :
  (generateCodeFromPrompt JSON.parse
     (stream [dq "data: {'code':'//\nbody','file':'typescript'}" ++ [nl]])).2
  = Ok {| files := [{| filename := []; content := lit "body" |}] |}
  ∧ handleDownload [{| filename := []; content := lit "body" |}] !! [] = None.
Proof.
  split; vm_compute; reflexivity.
Qed.

(** ** Instances of the theorems *)

Lemma decoder_rechunk_single_line_witness :
  (nl ∉ a_line)
  ∧ concat a_reads = a_line ++ [nl]
  ∧ (decode [] a_reads = ([a_line], [])
     ∧ decode [] [a_line ++ [nl]] = ([a_line], [])
     ∧ while_read JSON.parse initial [] a_reads
       = for_lines JSON.parse initial [a_line]
     ∧ ∀ pre post, a_reads = pre ++ post → nl ∉ concat pre →
         decode [] pre = ([], concat pre)).
Proof.
  assert (nl ∉ a_line) as H1 by compute_done.
  assert (concat a_reads = a_line ++ [nl]) as H2 by (vm_compute; reflexivity).
  exact (conj H1 (conj H2
    (decoder_rechunk_single_line JSON.parse initial a_line a_reads H1 H2))).
Defined.

Lemma data_line_filter_witness :
  forwarded (lit "event: ping") = false
  ∧ for_lines JSON.parse initial [lit "event: ping"; a_line]
    = for_lines JSON.parse initial [a_line]
  ∧ forwarded indented_line = true
  ∧ trim indented_line ≠ []
  ∧ payload indented_line ≠ [].
Proof.
  assert (forwarded (lit "event: ping") = false) as H1 by (vm_compute; reflexivity).
  assert (forwarded indented_line = true) as H2 by (vm_compute; reflexivity).
  destruct (data_line_filter JSON.parse initial (lit "event: ping") [a_line])
    as (_ & Hskip & _).
  destruct (data_line_filter JSON.parse initial indented_line [])
    as (_ & _ & Hforward).
  destruct (Hforward H2) as (H3 & H4 & _).
  exact (conj H1 (conj (Hskip H1) (conj H2 (conj H3 H4)))).
Defined.

Lemma rejected_payload_aborts_witness :
  ok (stream []) = true
  ∧ concat [a_line ++ [nl] ++ cut_line; nl :: unnamed_line]
    = (a_line ++ [nl]) ++ cut_line ++ nl :: unnamed_line
  ∧ (a_line ++ [nl] = [] ∨ last (a_line ++ [nl]) = Some nl)
  ∧ (nl ∉ cut_line)
  ∧ forwarded cut_line = true
  ∧ rejected (JSON.parse (payload cut_line)) = true
  ∧ (generateCodeFromPrompt JSON.parse
       (with_body (stream []) [a_line ++ [nl] ++ cut_line; nl :: unnamed_line])).2
    = Throw parse_error
  ∧ (generateCodeFromPrompt JSON.parse
       (with_body (stream []) [a_line ++ [nl] ++ cut_line; nl :: unnamed_line])).1
    = (generateCodeFromPrompt JSON.parse
         (with_body (stream []) [a_line ++ [nl]])).1.
Proof.
  assert (ok (stream []) = true) as H1 by reflexivity.
  assert (concat [a_line ++ [nl] ++ cut_line; nl :: unnamed_line]
          = (a_line ++ [nl]) ++ cut_line ++ nl :: unnamed_line) as H2
    by (vm_compute; reflexivity).
  assert (a_line ++ [nl] = [] ∨ last (a_line ++ [nl]) = Some nl) as H3
    by (right; vm_compute; reflexivity).
  assert (nl ∉ cut_line) as H4 by compute_done.
  assert (forwarded cut_line = true) as H5 by (vm_compute; reflexivity).
  assert (rejected (JSON.parse (payload cut_line)) = true) as H6
    by (vm_compute; reflexivity).
  pose proof (rejected_payload_aborts JSON.parse (stream []) _ _ _ _
                H1 H2 H3 H4 H5 H6) as [H7 H8].
  exact (conj H1 (conj H2 (conj H3 (conj H4 (conj H5 (conj H6 (conj H7 H8))))))).
Defined.

Lemma typescript_without_marker_discarded_witness :
  forwarded unnamed_line = true
  ∧ JSON.parse (payload unnamed_line) = Some unnamed_chunk
  ∧ get (Some unnamed_chunk) (lit "file") = Ok (Some (JStr (lit "typescript")))
  ∧ get (Some unnamed_chunk) (lit "code") = Ok (Some (JStr (lit "const y=2;")))
  ∧ startsWith (default [] (head (split nl (lit "const y=2;")))) (lit "//") = false
  ∧ loop_body JSON.parse (st_files initial) unnamed_line = Ok None
  ∧ for_lines JSON.parse initial [unnamed_line; a_line]
    = for_lines JSON.parse initial [a_line].
Proof.
  assert (forwarded unnamed_line = true) as H1 by (vm_compute; reflexivity).
  assert (JSON.parse (payload unnamed_line) = Some unnamed_chunk) as H2
    by (vm_compute; reflexivity).
  assert (get (Some unnamed_chunk) (lit "file")
          = Ok (Some (JStr (lit "typescript")))) as H3
    by (vm_compute; reflexivity).
  assert (get (Some unnamed_chunk) (lit "code")
          = Ok (Some (JStr (lit "const y=2;")))) as H4
    by (vm_compute; reflexivity).
  assert (startsWith (default [] (head (split nl (lit "const y=2;")))) (lit "//")
          = false) as H5 by (vm_compute; reflexivity).
  pose proof (typescript_without_marker_discarded JSON.parse initial
                unnamed_line [a_line] unnamed_chunk _ H1 H2 H3 H4 H5) as [H6 H7].
  exact (conj H1 (conj H2 (conj H3 (conj H4 (conj H5 (conj H6 H7)))))).
Defined.

Lemma snapshots_strip_leading_slash_witness :
  ok (stream slash_reads) = true
  ∧ body (stream slash_reads) = Some slash_reads
  ∧ while_read_tables JSON.parse initial [] slash_reads
    = [[(lit "/a.ts", lit "one")];
       [(lit "/a.ts", lit "one"); (lit "a.ts", lit "two")]]
  ∧ Forall2 (Forall2 emitted_as)
      (while_read_tables JSON.parse initial [] slash_reads)
      (generateCodeFromPrompt JSON.parse (stream slash_reads)).1
  ∧ (∀ r, (generateCodeFromPrompt JSON.parse (stream slash_reads)).2 = Ok r →
          Forall2 emitted_as
            (st_files (while_read JSON.parse initial [] slash_reads).1)
            (files r))
  ∧ st_files (while_read JSON.parse initial [] slash_reads).1
    = default []
        (last (while_read_tables JSON.parse initial [] slash_reads))
  ∧ ∀ c file, emitted_as (lit "/src/App.tsx", c) file →
              file = {| filename := lit "src/App.tsx"; content := c |}.
Proof.
  assert (ok (stream slash_reads) = true) as H1 by reflexivity.
  assert (body (stream slash_reads) = Some slash_reads) as H2 by reflexivity.
  assert (while_read_tables JSON.parse initial [] slash_reads
          = [[(lit "/a.ts", lit "one")];
             [(lit "/a.ts", lit "one"); (lit "a.ts", lit "two")]]) as H3
    by (vm_compute; reflexivity).
  exact (conj H1 (conj H2 (conj H3
    (snapshots_strip_leading_slash JSON.parse (stream slash_reads) slash_reads
       H1 H2)))).
Defined.

Lemma trailing_partial_line_discarded_witness :
  concat [a_line; nl :: cut_line] = (a_line ++ [nl]) ++ cut_line
  ∧ (nl ∉ cut_line)
  ∧ (a_line ++ [nl] = [] ∨ last (a_line ++ [nl]) = Some nl)
  ∧ decode [] [a_line; nl :: cut_line] = (complete_lines (a_line ++ [nl]), cut_line)
  ∧ decode [] [a_line ++ [nl]] = (complete_lines (a_line ++ [nl]), [])
  ∧ generateCodeFromPrompt JSON.parse (with_body (stream []) [a_line; nl :: cut_line])
    = generateCodeFromPrompt JSON.parse (with_body (stream []) [a_line ++ [nl]]).
Proof.
  assert (concat [a_line; nl :: cut_line] = (a_line ++ [nl]) ++ cut_line) as H1
    by (vm_compute; reflexivity).
  assert (nl ∉ cut_line) as H2 by compute_done.
  assert (a_line ++ [nl] = [] ∨ last (a_line ++ [nl]) = Some nl) as H3
    by (right; vm_compute; reflexivity).
  exact (conj H1 (conj H2 (conj H3
    (trailing_partial_line_discarded JSON.parse (stream []) _ _ _ H1 H2 H3)))).
Defined.

Lemma non_success_status_throws_witness :
  ok refused = false
  ∧ (generateCodeFromPrompt JSON.parse refused).2
    = Throw (Error (JStr (lit "prompt too long"))).
Proof.
  assert (ok refused = false) as H1 by reflexivity.
  split; [exact H1|].
  destruct (non_success_status_throws JSON.parse refused H1)
    as (_ & _ & _ & H & _).
  apply H; [reflexivity | vm_compute; discriminate].
Defined.

Lemma returned_files_are_last_snapshot_witness :
  (generateCodeFromPrompt JSON.parse (stream a_reads)).2 = Ok {| files := a_files |}
  ∧ (generateCodeFromPrompt JSON.parse (stream a_reads)).1 ≠ []
  ∧ last (generateCodeFromPrompt JSON.parse (stream a_reads)).1 = Some a_files.
Proof.
  assert ((generateCodeFromPrompt JSON.parse (stream a_reads)).2
          = Ok {| files := a_files |}) as H1 by (vm_compute; reflexivity).
  assert ((generateCodeFromPrompt JSON.parse (stream a_reads)).1 ≠ []) as H2
    by (vm_compute; discriminate).
  exact (conj H1 (conj H2
    (returned_files_are_last_snapshot JSON.parse (stream a_reads) _ H1 H2))).
Defined.

(** * Further properties of [generateCodeFromPrompt] *)

Section generate_more.

Context (JSON_parse : jsstring → option json).

(** ** The stream as a text *)

(** The calls of the callback and the outcome depend on the text of the
    stream only, not on how the reads cut it. *)
Theorem outcome_depends_on_text response reads reads' :
  concat reads = concat reads' →
  generateCodeFromPrompt JSON_parse (with_body response reads)
  = generateCodeFromPrompt JSON_parse (with_body response reads').
Proof.
  intros H.
  rewrite (generate_concat _ response reads), (generate_concat _ response reads').
  by rewrite H.
Qed.

(** ** Errors *)

Lemma while_read_rejected_eq reason st buffer reads :
  while_read_rejected JSON_parse reason st buffer reads
  = continue_with (while_read JSON_parse st buffer reads)
      (λ st, (st, Some reason)).
Proof.
  revert st buffer. induction reads as [|value rest IH]; intros st buffer;
    cbn [while_read_rejected while_read]; [done|].
  destruct (pop (split nl (buffer ++ value))) as [last_line lines].
  destruct (for_lines JSON_parse st lines) as [st' [e|]]; [done|apply IH].
Qed.

(** With a success status the call throws three errors only.  When every
    read resolves, up to [done]: the one for a missing body, before any
    call of the callback, and the one for a payload the loop cannot take;
    no [TypeError] or [SyntaxError] of the [try] block of a line gets out.
    When a read is rejected after reads that resolve: the callback is
    called as for those reads, the error is the one for a payload when one
    of their lines is rejected, and the reason of the rejected read, as it
    is, otherwise. *)
Theorem success_status_errors response :
  ok response = true →
  (∀ e, (generateCodeFromPrompt JSON_parse response).2 = Throw e →
        (body response = None
         ∧ e = Error (JStr (lit "No response body received"))
         ∧ (generateCodeFromPrompt JSON_parse response).1 = [])
        ∨ (body response ≠ None ∧ e = parse_error))
  ∧ ∀ reads reason,
      (generateCodeFromPrompt_rejected JSON_parse reads reason).1
      = (generateCodeFromPrompt JSON_parse (with_body response reads)).1
      ∧ match (generateCodeFromPrompt JSON_parse (with_body response reads)).2 with
        | Ok _ =>
            (generateCodeFromPrompt_rejected JSON_parse reads reason).2
            = Throw reason
        | Throw e =>
            e = parse_error
            ∧ (generateCodeFromPrompt_rejected JSON_parse reads reason).2
              = Throw parse_error
        end.
Proof.
  intros Hok. split.
  - intros e. unfold generateCodeFromPrompt. rewrite Hok. cbn [negb].
    destruct (body response) as [reads|].
    + destruct (while_read JSON_parse _ [] reads) as [st [e'|]] eqn:E; [|done].
      cbn [snd]. intros [= <-]. right. split; [done|].
      rewrite while_read_decode in E. by eapply for_lines_exn.
    + cbn [fst snd]. intros [= <-]. by left.
  - intros reads reason.
    unfold generateCodeFromPrompt_rejected, generateCodeFromPrompt, with_body.
    cbn [ok body]. rewrite Hok. cbn [negb].
    rewrite while_read_rejected_eq.
    destruct (while_read JSON_parse _ [] reads) as [st [e|]] eqn:E;
      cbn [continue_with fst snd]; [|done].
    rewrite while_read_decode in E.
    apply for_lines_exn in E as ->. done.
Qed.




(** ** Chunks with a marker *)




(** ** How snapshots follow one another *)

Lemma Map_set_cases (m : Map) key v :
  (Map_get m key = None ∧ Map_set m key v = m ++ [(key, v)])
  ∨ (∃ before old after,
       m = before ++ (key, old) :: after
       ∧ Map_get m key = Some old
       ∧ Map_set m key v = before ++ (key, v) :: after).
Proof.
  induction m as [|[k v'] m IH]; simpl.
  - by left.
  - destruct (decide (k = key)) as [->|Hk].
    + right. by exists [], v', m.
    + destruct IH as [[Hget Hset]|(before & old & after & -> & Hget & Hset)].
      * left. by rewrite Hset.
      * right. exists ((k, v') :: before), old, after. by rewrite Hset.
Qed.

Lemma snapshot_step_append (m : Map) key extra :
  snapshot_step (entries_to_files m)
    (entries_to_files (Map_set m key (default [] (Map_get m key) ++ extra))).
Proof.
  destruct (Map_set_cases m key (default [] (Map_get m key) ++ extra))
    as [[Hget ->]|(before & old & after & -> & Hget & ->)].
  - left. unfold entries_to_files. rewrite fmap_app. by eexists.
  - right. rewrite Hget. unfold entries_to_files. rewrite !fmap_app, !fmap_cons.
    by eexists _, {| filename := strip_leading_slash key; content := old |}, _, extra.
Qed.

Lemma apply_chunk_appends files chunk files' currentFiles :
  apply_chunk files chunk = Ok (Some (files', currentFiles)) →
  currentFiles = entries_to_files files'
  ∧ ∃ filename extra,
      files' = Map_set files filename (default [] (Map_get files filename) ++ extra).
Proof.
  unfold apply_chunk.
  destruct (get (Some chunk) (lit "file")) as [file|]; [|done].
  destruct (get (Some chunk) (lit "code")) as [[[| | |code| |]|]|]; try done.
  cbn [mbind result_bind].
  destruct (_ && _).
  { intros [= <- <-]. eauto. }
  destruct (strict_equals _ _); [done|].
  destruct file as [[| | |file| |]|]; try done.
  intros [= <- <-]. eauto.
Qed.

Lemma loop_body_appends files line files' currentFiles :
  loop_body JSON_parse files line = Ok (Some (files', currentFiles)) →
  currentFiles = entries_to_files files'
  ∧ ∃ filename extra,
      files' = Map_set files filename (default [] (Map_get files filename) ++ extra).
Proof.
  destruct (forwarded line) eqn:E.
  - rewrite loop_body_forwarded by done.
    destruct (JSON_parse (payload line)) as [chunk|]; [|done].
    destruct (apply_chunk files chunk) as [r|] eqn:Ha; [|done].
    simpl. intros [= ->]. by eapply apply_chunk_appends.
  - by rewrite loop_body_ignored.
Qed.

Lemma for_lines_growth st lines :
  growth_inv st → growth_inv (for_lines JSON_parse st lines).1.
Proof.
  revert st. induction lines as [|line rest IH]; intros st Hst; simpl; [done|].
  destruct (loop_body JSON_parse (st_files st) line)
    as [[[files' currentFiles]|]|e] eqn:E; auto.
  apply IH. apply loop_body_appends in E as [-> (filename & extra & ->)].
  destruct Hst as (Hlast & Hfirst & Hsteps).
  repeat split; cbn [st_files st_calls].
  - right. by rewrite last_snoc.
  - intros s Hs. destruct Hlast as [[Hcalls Hfiles]|Hlast].
    + rewrite Hcalls, Hfiles in *. simpl in Hs. injection Hs as <-.
      by eexists.
    + apply Hfirst. rewrite lookup_app_l in Hs; [done|].
      destruct (st_calls st); [done|simpl; lia].
  - intros i s s' Hs Hs'.
    destruct (decide (S i < length (st_calls st))%nat) as [Hlt|Hge].
    + rewrite !lookup_app_l in Hs, Hs' by lia. by eapply Hsteps.
    + assert (S i = length (st_calls st)) as Hi.
      { apply lookup_lt_Some in Hs'. rewrite length_app in Hs'. simpl in Hs'. lia. }
      rewrite lookup_app_l in Hs by lia.
      rewrite Hi, lookup_app_r, Nat.sub_diag in Hs' by lia.
      simpl in Hs'. injection Hs' as <-.
      destruct Hlast as [[Hcalls _]|Hlast]; [by rewrite Hcalls in Hs|].
      rewrite last_lookup, <- Hi in Hlast. simpl in Hlast.
      rewrite Hs in Hlast. injection Hlast as ->.
      apply snapshot_step_append.
Qed.

(** The first call of the callback gets one file; every later call gets
    the files of the call before it, in the same order and under the same
    names, with either one more file at the end or more text at the end of
    the content of one file.  So no file is ever removed, renamed, moved or
    shortened. *)
Theorem snapshots_grow response :
  (∀ s, (generateCodeFromPrompt JSON_parse response).1 !! 0%nat = Some s →
        ∃ f, s = [f])
  ∧ ∀ i s s',
      (generateCodeFromPrompt JSON_parse response).1 !! i = Some s →
      (generateCodeFromPrompt JSON_parse response).1 !! S i = Some s' →
      snapshot_step s s'.
Proof.
  assert (growth_inv initial) as Hinit.
  { split; [by left|]. split; intros; simplify_eq/=. }
  assert (∃ st, growth_inv st
                ∧ (generateCodeFromPrompt JSON_parse response).1 = st_calls st)
    as (st & (_ & Hfirst & Hsteps) & ->).
  { unfold generateCodeFromPrompt.
    destruct (negb (ok response)); [by exists initial|].
    destruct (body response) as [reads|]; [|by exists initial].
    rewrite while_read_decode. fold initial.
    pose proof (for_lines_growth _ (decode [] reads).1 Hinit) as Hinv.
    destruct (for_lines JSON_parse initial _) as [st [e|]]; by exists st. }
  done.
Qed.

End generate_more.

(** * The preview component *)

(** ** Status messages *)

Lemma split_join sep (segments : list jsstring) :
  segments ≠ [] → Forall (λ seg, sep ∉ seg) segments →
  split sep (join sep segments) = segments.
Proof.
  intros Hne H. induction H as [|seg segments Hseg _ IH]; [done|].
  destruct segments as [|seg' segments].
  - simpl. by apply split_no_sep.
  - change (join sep (seg :: seg' :: segments))
      with (seg ++ sep :: join sep (seg' :: segments)).
    rewrite split_app_sep by done. by rewrite IH.
Qed.

(** When the content of [status.log] is lines of text that [JSON.parse]
    refuses, or that it reads as [null], the messages become the lines that
    are not blank, in order; the messages there were are dropped. *)
Theorem status_text_lines JSON_parse files statusLog lines statusMessages :
  List.find (λ f, bool_decide (filename f = lit "status.log")) files
  = Some statusLog →
  content statusLog = join nl lines →
  lines ≠ [] → Forall (λ line, nl ∉ line) lines →
  JSON_parse (content statusLog) = None
  ∨ JSON_parse (content statusLog) = Some JNull →
  status_effect JSON_parse files statusMessages
  = JStr <$> filter (λ line, trim line ≠ []) lines.
Proof.
  intros Hfind Hcontent Hne Hlines Hparse. unfold status_effect.
  rewrite Hfind.
  assert (split nl (content statusLog) = lines) as ->
    by (rewrite Hcontent; by apply split_join).
  by destruct Hparse as [-> | ->].
Qed.

(** ** Expanded directories *)

(** Toggling a directory changes whether it is expanded and nothing else,
    and toggling it twice gives back the set there was. *)
Theorem toggleDir_involutive (path : jsstring) (prev : gset jsstring) :
  toggleDir path (toggleDir path prev) = prev
  ∧ (path ∈ toggleDir path prev ↔ path ∉ prev)
  ∧ ∀ other, other ≠ path → (other ∈ toggleDir path prev ↔ other ∈ prev).
Proof.
  unfold toggleDir. destruct (decide (path ∈ prev)) as [Hin|Hin].
  - rewrite (bool_decide_eq_true_2 _ Hin).
    rewrite bool_decide_eq_false_2
      by (rewrite elem_of_difference, elem_of_singleton; tauto).
    split; [|split].
    + apply set_eq. intros x.
      rewrite elem_of_union, elem_of_difference, !elem_of_singleton.
      destruct (decide (x = path)) as [->|]; tauto.
    + rewrite elem_of_difference, elem_of_singleton. tauto.
    + intros other Hne. rewrite elem_of_difference, elem_of_singleton. tauto.
  - rewrite (bool_decide_eq_false_2 _ Hin).
    rewrite bool_decide_eq_true_2
      by (rewrite elem_of_union, elem_of_singleton; tauto).
    split; [|split].
    + apply set_eq. intros x.
      rewrite elem_of_difference, elem_of_union, !elem_of_singleton.
      destruct (decide (x = path)) as [->|]; tauto.
    + rewrite elem_of_union, elem_of_singleton. tauto.
    + intros other Hne. rewrite elem_of_union, elem_of_singleton. tauto.
Qed.

(** ** The language of a file *)

Lemma split_app sep a b :
  split sep (a ++ sep :: b) = split sep a ++ split sep b.
Proof.
  induction a as [|c a IH]; simpl.
  - by rewrite N.eqb_refl.
  - destruct (N.eqb_spec c sep) as [->|_]; [by rewrite IH|].
    rewrite IH. pose proof (split_not_nil sep a).
    by destruct (split sep a).
Qed.

Lemma split_last sep a b :
  sep ∉ b → last (split sep (a ++ sep :: b)) = Some b.
Proof.
  intros Hb. by rewrite split_app, (split_no_sep sep b), last_snoc.
Qed.

(** The language is never empty and has no full stop in it.  It is the
    text after the last full stop of the filename, when there is such a
    text; the whole filename, when that has no full stop and is not empty;
    and [plaintext] when the filename is empty or ends with a full stop. *)
Theorem language_of_filename filename :
  language filename ≠ [] ∧ (dot ∉ language filename)
  ∧ (∀ stem extension, filename = stem ++ dot :: extension →
       dot ∉ extension → extension ≠ [] → language filename = extension)
  ∧ (dot ∉ filename → filename ≠ [] → language filename = filename)
  ∧ (∀ stem, filename = stem ++ [dot] → language filename = lit "plaintext")
  ∧ (filename = [] → language filename = lit "plaintext").
Proof.
  unfold language, pop. cbn [fst].
  split; [|split; [|split; [|split; [|split]]]].
  - case_bool_decide; [done|done].
  - case_bool_decide as He; [compute_done|].
    pose proof (split_segments dot filename) as H.
    destruct (last (split dot filename)) as [ext|] eqn:E; [|done].
    apply last_Some_elem_of in E. rewrite Forall_forall in H. by apply H.
  - intros stem extension -> Hdot Hne.
    rewrite split_last by done. simpl. by rewrite bool_decide_eq_false_2.
  - intros Hdot Hne. rewrite split_no_sep by done. simpl.
    by rewrite bool_decide_eq_false_2.
  - intros stem ->. rewrite split_last by apply not_elem_of_nil. done.
  - by intros ->.
Qed.

(** * The directory tree *)

(** ** Nodes, leaves and heights *)

Lemma DirectoryNode_nested_ind (P : DirectoryNode → Prop) :
  (∀ name type path content, P (mkNode name type path None content)) →
  (∀ name type path children content,
     Forall P children → P (mkNode name type path (Some children) content)) →
  ∀ node, P node.
Proof.
  intros Hleaf Hnode.
  fix IH 1. intros [name type path [children|] content]; [|apply Hleaf].
  apply Hnode. induction children as [|child children IHc]; constructor.
  - apply IH.
  - apply IHc.
Qed.

Lemma leaves_of_directory name path children content :
  leaves_of (mkNode name type_directory path (Some children) content)
  = leaves children.
Proof.
  unfold leaves. simpl.
  induction children as [|child children IH]; simpl; [done|]. by rewrite IH.
Qed.

Lemma leaves_app l1 l2 : leaves (l1 ++ l2) = leaves l1 ++ leaves l2.
Proof. unfold leaves. by rewrite fmap_app, concat_app. Qed.

Lemma leaves_cons node nodes : leaves (node :: nodes) = leaves_of node ++ leaves nodes.
Proof. done. Qed.

Lemma elem_of_leaves leaf nodes :
  leaf ∈ leaves nodes ↔ ∃ node, node ∈ nodes ∧ leaf ∈ leaves_of node.
Proof.
  induction nodes as [|node nodes IH].
  - split; [by intros ?%elem_of_nil|]. by intros (? & ?%elem_of_nil & _).
  - rewrite leaves_cons, elem_of_app, IH. split.
    + intros [H|(n & Hn & H)]; [exists node|exists n];
        (split; [|done]); [left|by right].
    + intros (n & [->|Hn]%elem_of_cons & H); [by left|right; eauto].
Qed.

Lemma leaves_Permutation l1 l2 : l1 ≡ₚ l2 → leaves l1 ≡ₚ leaves l2.
Proof. intros H. unfold leaves. by rewrite H. Qed.

Lemma leaves_with_children node children :
  leaves_of (with_children node children)
  = match node_type node with
    | type_file => leaves_of node
    | type_directory => leaves children
    end.
Proof.
  destruct node as [name [] path ch content]; [done|].
  cbn [with_children node_type]. apply leaves_of_directory.
Qed.

Lemma height_children name type path children content :
  height (mkNode name type path (Some children) content) = S (heights children).
Proof.
  reflexivity.
Qed.

Lemma height_le_heights node nodes : node ∈ nodes → (height node ≤ heights nodes)%nat.
Proof.
  induction 1 as [node nodes|node other nodes _ IH]; simpl; lia.
Qed.

(** ** The sort *)

Lemma insert_sorted_Permutation {A} (compare : A → A → Z) x l :
  insert_sorted compare x l ≡ₚ x :: l.
Proof.
  induction l as [|y l IH]; simpl; [done|].
  destruct (0 <? compare y x)%Z; [done|].
  rewrite IH. apply Permutation_swap.
Qed.

Lemma Array_sort_Permutation {A} (compare : A → A → Z) l :
  Array_sort compare l ≡ₚ l.
Proof.
  unfold Array_sort.
  assert (∀ sorted, foldl (λ sorted x, insert_sorted compare x sorted) sorted l
                    ≡ₚ sorted ++ l) as H; [|apply H].
  induction l as [|x l IH]; intros sorted; simpl.
  - by rewrite app_nil_r.
  - rewrite IH, insert_sorted_Permutation. simpl.
    apply Permutation_middle.
Qed.

(** ** Building the tree *)

Lemma last_index (parts : list jsstring) index part rest :
  drop index parts = part :: rest →
  bool_decide (index = (length parts - 1)%nat) = bool_decide (rest = [])
  ∧ drop (S index) parts = rest
  ∧ take (S index) parts = take index parts ++ [part].
Proof.
  intros Hdrop.
  assert (length (drop index parts) = S (length rest)) as Hlen
    by (by rewrite Hdrop).
  rewrite length_drop in Hlen.
  assert (parts !! index = Some part) as Hpart
    by (by rewrite <- (Nat.add_0_r index), <- lookup_drop, Hdrop).
  split; [|split].
  - apply bool_decide_ext. split.
    + intros ->. destruct rest; [done|simpl in Hlen; lia].
    + intros ->. simpl in Hlen. lia.
  - rewrite (drop_S _ _ _ Hpart) in Hdrop. by injection Hdrop.
  - by apply take_S_r.
Qed.

Lemma take_last_part (parts : list jsstring) index part :
  drop index parts = [part] → take (S index) parts = parts.
Proof.
  intros Hdrop. apply take_ge.
  assert (length (drop index parts) = 1%nat) as Hlen by (by rewrite Hdrop).
  rewrite length_drop in Hlen. lia.
Qed.

Lemma add_parts_leaves parts file_content index rest level level' :
  drop index parts = rest →
  add_parts parts file_content index rest level = Ok level' →
  ∀ leaf, leaf ∈ leaves level' →
    leaf ∈ leaves level
    ∨ leaf = {| filename := join slash parts; content := file_content |}.
Proof.
  revert index level level'.
  induction rest as [|part rest IH]; intros index level level' Hdrop.
  - cbn [add_parts]. intros ?. simplify_eq. auto.
  - destruct (last_index _ _ _ _ Hdrop) as (Hlast & Hdrop' & _).
    cbn [add_parts]. rewrite Hlast. clear Hlast.
    destruct (list_find _ level) as [[i existing]|] eqn:Hfind.
    + apply list_find_Some in Hfind as (Hi & _ & _).
      case_bool_decide as Hrest; [intros [= <-]; auto|].
      destruct (node_children existing) as [children|] eqn:Hch; [|done].
      destruct (add_parts parts file_content (S index) rest children)
        as [children'|] eqn:E; [|done].
      cbn [mbind result_bind]. intros [= <-] leaf Hleaf.
      apply elem_of_leaves in Hleaf as (node & Hnode & Hleaf).
      apply list_elem_of_lookup in Hnode as [j Hj].
      apply list_lookup_insert_Some in Hj as [(-> & <- & _)|[_ Hj]].
      * rewrite leaves_with_children in Hleaf.
        destruct existing as [name [] path ch content]; cbn in Hleaf, Hch.
        -- left. apply elem_of_leaves.
           exists (mkNode name type_file path ch content).
           split; [by eapply list_elem_of_lookup_2|done].
        -- subst ch. destruct (IH _ _ _ Hdrop' E leaf Hleaf) as [Hin | ->]; [|auto].
           left. apply elem_of_leaves.
           exists (mkNode name type_directory path (Some children) content).
           split; [by eapply list_elem_of_lookup_2|].
           by rewrite leaves_of_directory.
      * left. apply elem_of_leaves. exists node.
        split; [by eapply list_elem_of_lookup_2|done].
    + case_bool_decide as Hrest.
      * rewrite Hrest in Hdrop. intros [= <-] leaf.
        rewrite leaves_app, elem_of_app.
        intros [?|Hleaf]; [auto|]. right.
        rewrite (take_last_part _ _ _ Hdrop) in Hleaf.
        by apply list_elem_of_singleton in Hleaf.
      * destruct (add_parts parts file_content (S index) rest [])
          as [children'|] eqn:E; [|done].
        cbn [mbind result_bind]. intros [= <-] leaf.
        rewrite leaves_app, elem_of_app. intros [?|Hleaf]; [auto|].
        unfold leaves in Hleaf. cbn [fmap list_fmap concat] in Hleaf.
        rewrite app_nil_r in Hleaf. cbn [with_children] in Hleaf.
        rewrite leaves_of_directory in Hleaf.
        destruct (IH _ _ _ Hdrop' E leaf Hleaf) as [Hin | ->]; [|auto].
        by apply elem_of_nil in Hin.
Qed.

Lemma add_files_leaves files root root' :
  add_files files root = Ok root' →
  ∀ leaf, leaf ∈ leaves root' → leaf ∈ leaves root ∨ leaf ∈ files.
Proof.
  revert root. induction files as [|file files IH]; intros root.
  - cbn [add_files]. intros ?. simplify_eq. auto.
  - cbn [add_files].
    destruct (add_parts _ _ _ _ root) as [root1|] eqn:E; [|done].
    cbn [mbind result_bind]. intros Hrest leaf Hleaf.
    destruct (IH _ Hrest leaf Hleaf) as [Hin|Hin]; [|right; by right].
    destruct (add_parts_leaves _ _ _ _ _ _ eq_refl E leaf Hin) as [? | ->];
      [auto|].
    right. rewrite join_split. destruct file. left.
Qed.

(** ** Nodes that are there already *)

Lemma add_parts_exn parts file_content index rest level e :
  add_parts parts file_content index rest level = Throw e → e = TypeError.
Proof.
  revert index level. induction rest as [|part rest IH]; intros index level;
    cbn [add_parts]; [done|].
  destruct (list_find _ level) as [[i existing]|].
  - destruct (bool_decide _); [done|].
    destruct (node_children existing) as [children|]; [|by intros [= <-]].
    destruct (add_parts parts file_content (S index) rest children) eqn:E;
      [done|].
    cbn [mbind result_bind]. intros [= <-]. by eapply IH.
  - destruct (bool_decide _); [done|].
    destruct (add_parts parts file_content (S index) rest []) eqn:E; [done|].
    cbn [mbind result_bind]. intros [= <-]. by eapply IH.
Qed.

Lemma add_files_exn files root e : add_files files root = Throw e → e = TypeError.
Proof.
  revert root. induction files as [|file files IH]; intros root;
    cbn [add_files]; [done|].
  destruct (add_parts _ _ _ _ root) as [root1|e1] eqn:E;
    cbn [mbind result_bind].
  - apply IH.
  - intros [= <-]. by eapply add_parts_exn.
Qed.

Lemma add_files_app l1 l2 root :
  add_files (l1 ++ l2) root = add_files l1 root ≫= add_files l2.
Proof.
  revert root. induction l1 as [|file l1 IH]; intros root; [done|].
  cbn [app add_files].
  destruct (add_parts _ _ _ _ root) as [root1|]; cbn [mbind result_bind];
    [apply IH|done].
Qed.

Lemma find_insert_same (level : list DirectoryNode) part i node node' :
  list_find (λ node, node_name node = part) level = Some (i, node) →
  node_name node' = part →
  list_find (λ node, node_name node = part) (<[i:=node']> level)
  = Some (i, node').
Proof.
  intros (Hi & _ & Hleast)%list_find_Some Hname.
  apply list_find_insert_Some. right. left.
  split; [done|]. split; [done|]. split; [by eapply lookup_lt_Some|].
  split; [done|]. eauto.
Qed.

Lemma find_insert_other (level : list DirectoryNode) part i node node' :
  level !! i = Some node →
  node_name node ≠ part → node_name node' ≠ part →
  list_find (λ node, node_name node = part) (<[i:=node']> level)
  = list_find (λ node, node_name node = part) level.
Proof.
  revert i. induction level as [|first level IH]; intros i Hi Hn Hn'; [done|].
  destruct i as [|i]; simpl in *.
  - injection Hi as ->. by rewrite !decide_False.
  - by rewrite IH.
Qed.

Lemma find_snoc (level : list DirectoryNode) part node :
  list_find (λ node, node_name node = part) level = None →
  node_name node = part →
  ∃ i, list_find (λ node, node_name node = part) (level ++ [node])
       = Some (i, node).
Proof.
  intros Hnone Hname. rewrite list_find_app_r by done. simpl.
  rewrite decide_True by done. by eexists.
Qed.

Lemma walk_app_l rest level extra node :
  walk rest level = Some node → walk rest (level ++ extra) = Some node.
Proof.
  destruct rest as [|part rest]; [done|]. cbn [walk].
  destruct (list_find _ level) as [[i found]|] eqn:Hfind; [|done].
  by rewrite (list_find_app_l _ _ _ _ _ Hfind).
Qed.

Lemma with_children_name node children :
  node_name (with_children node children) = node_name node.
Proof. by destruct node. Qed.

Lemma with_children_children node children :
  node_children (with_children node children) = Some children.
Proof. by destruct node. Qed.

Lemma with_children_same node children :
  node_children node = Some children → with_children node children = node.
Proof. destruct node; simpl. by intros ->. Qed.

(** Adding a file where a node is reached already changes nothing. *)
Lemma walk_noop parts file_content index rest level node :
  drop index parts = rest →
  walk rest level = Some node →
  add_parts parts file_content index rest level = Ok level.
Proof.
  revert index level. induction rest as [|part rest IH];
    intros index level Hdrop; [done|].
  destruct (last_index _ _ _ _ Hdrop) as (Hlast & Hdrop' & _).
  cbn [walk add_parts]. rewrite Hlast. clear Hlast.
  destruct (list_find _ level) as [[i existing]|] eqn:Hfind; [|done].
  destruct rest as [|next rest]; [done|].
  rewrite bool_decide_eq_false_2 by done.
  destruct (node_children existing) as [children|] eqn:Hch; [|done].
  intros Hwalk. rewrite (IH _ _ Hdrop' Hwalk). cbn [mbind result_bind].
  apply list_find_Some in Hfind as (Hi & _).
  by rewrite (with_children_same _ _ Hch), list_insert_id.
Qed.

(** After a file is added, a node is reached along its parts. *)
Lemma walk_established parts file_content index rest level level' :
  drop index parts = rest → rest ≠ [] →
  add_parts parts file_content index rest level = Ok level' →
  is_Some (walk rest level').
Proof.
  revert index level level'. induction rest as [|part rest IH];
    intros index level level' Hdrop Hne; [done|].
  destruct (last_index _ _ _ _ Hdrop) as (Hlast & Hdrop' & _).
  cbn [walk add_parts]. rewrite Hlast. clear Hlast.
  destruct (list_find _ level) as [[i existing]|] eqn:Hfind.
  - destruct rest as [|next rest].
    + rewrite bool_decide_eq_true_2 by done. intros [= <-].
      rewrite Hfind. by eexists.
    + rewrite bool_decide_eq_false_2 by done.
      destruct (node_children existing) as [children|] eqn:Hch; [|done].
      destruct (add_parts parts file_content (S index) (next :: rest) children)
        as [children'|] eqn:E; [|done].
      cbn [mbind result_bind]. intros [= <-].
      pose proof (proj1 (list_find_Some _ _ _ _) Hfind) as (_ & Hname & _).
      rewrite (find_insert_same _ _ _ _ (with_children existing children') Hfind)
        by (by rewrite with_children_name).
      rewrite with_children_children. by eapply IH.
  - destruct rest as [|next rest].
    + rewrite bool_decide_eq_true_2 by done. intros [= <-].
      destruct (find_snoc level part
                  (mkNode part type_file (join slash (take (S index) parts))
                     None (Some file_content)) Hfind eq_refl) as [i ->].
      by eexists.
    + rewrite bool_decide_eq_false_2 by done.
      destruct (add_parts parts file_content (S index) (next :: rest) [])
        as [children'|] eqn:E; [|done].
      cbn [mbind result_bind]. intros [= <-].
      destruct (find_snoc level part
                  (mkNode part type_directory
                     (join slash (take (S index) parts)) (Some children') None)
                  Hfind eq_refl) as [i ->].
      cbn [node_children]. by eapply IH.
Qed.

(** Adding a file keeps the nodes that are reached, and keeps a file node
    as it is. *)
Lemma walk_preserved parts file_content index rest level level' path node :
  drop index parts = rest →
  add_parts parts file_content index rest level = Ok level' →
  walk path level = Some node →
  ∃ node', walk path level' = Some node'
           ∧ (node_children node = None → node' = node).
Proof.
  revert index level level' path node.
  induction rest as [|part rest IH]; intros index level level' path node Hdrop.
  { cbn [add_parts]. intros [= <-] Hwalk. eauto. }
  destruct (last_index _ _ _ _ Hdrop) as (Hlast & Hdrop' & _).
  cbn [add_parts]. rewrite Hlast. clear Hlast.
  destruct (list_find _ level) as [[i existing]|] eqn:Hfind.
  - case_bool_decide as Hrest; [intros [= <-] Hwalk; eauto|].
    destruct (node_children existing) as [children|] eqn:Hch; [|done].
    destruct (add_parts parts file_content (S index) rest children)
      as [children'|] eqn:E; [|done].
    cbn [mbind result_bind]. intros [= <-].
    pose proof (proj1 (list_find_Some _ _ _ _) Hfind) as (Hi & Hname & _).
    destruct path as [|first path]; [done|]. cbn [walk].
    destruct (decide (first = part)) as [->|Hne].
    + rewrite Hfind.
      rewrite (find_insert_same _ _ _ _ (with_children existing children') Hfind)
        by (by rewrite with_children_name).
      rewrite with_children_children, Hch.
      destruct path as [|next path].
      * intros [= <-]. eexists. split; [done|]. by rewrite Hch.
      * intros Hwalk. by eapply IH.
    + rewrite (find_insert_other _ _ _ _ _ Hi)
        by (rewrite ?with_children_name; congruence).
      intros Hwalk. eauto.
  - assert (∀ extra, walk path level = Some node →
              ∃ node', walk path (level ++ extra) = Some node'
                       ∧ (node_children node = None → node' = node)) as Happ.
    { intros extra Hwalk. exists node. split; [|done]. by apply walk_app_l. }
    case_bool_decide as Hrest; [intros [= <-]; apply Happ|].
    destruct (add_parts parts file_content (S index) rest []); [|done].
    cbn [mbind result_bind]. intros [= <-]. apply Happ.
Qed.

Lemma add_files_preserved files root root' path node :
  add_files files root = Ok root' →
  walk path root = Some node →
  ∃ node', walk path root' = Some node'
           ∧ (node_children node = None → node' = node).
Proof.
  revert root node. induction files as [|file files IH]; intros root node.
  { cbn [add_files]. intros [= <-] Hwalk. eauto. }
  cbn [add_files].
  destruct (add_parts _ _ _ _ root) as [root1|] eqn:E; [|done].
  cbn [mbind result_bind]. intros Hrest Hwalk.
  destruct (walk_preserved (split slash (filename file)) (content file) 0
              (split slash (filename file)) root root1 path node
              eq_refl E Hwalk) as (node1 & Hwalk1 & Hsame1).
  destruct (IH _ _ Hrest Hwalk1) as (node' & Hwalk' & Hsame').
  exists node'. split; [done|]. intros Hnone.
  rewrite <- (Hsame1 Hnone). apply Hsame'. by rewrite (Hsame1 Hnone).
Qed.

(** The first file added to an empty level is reached as a file node. *)
Lemma walk_file_created parts file_content index rest level' :
  drop index parts = rest → rest ≠ [] →
  add_parts parts file_content index rest [] = Ok level' →
  ∃ node, walk rest level' = Some node ∧ node_children node = None.
Proof.
  revert index level'. induction rest as [|part rest IH];
    intros index level' Hdrop Hne; [done|].
  destruct (last_index _ _ _ _ Hdrop) as (Hlast & Hdrop' & _).
  cbn [add_parts list_find]. rewrite Hlast. clear Hlast.
  destruct rest as [|next rest].
  - rewrite bool_decide_eq_true_2 by done. intros [= <-].
    cbn. rewrite decide_True by done. by eexists.
  - rewrite bool_decide_eq_false_2 by done.
    destruct (add_parts parts file_content (S index) (next :: rest) [])
      as [children'|] eqn:E; [|done].
    cbn [mbind result_bind]. intros [= <-].
    cbn. rewrite decide_True by done. cbn. by eapply IH.
Qed.

(** A file below a file node cannot be added. *)
Lemma walk_throw parts file_content index path more level node :
  drop index parts = path ++ more → more ≠ [] →
  walk path level = Some node → node_children node = None →
  add_parts parts file_content index (path ++ more) level = Throw TypeError.
Proof.
  revert index level. induction path as [|part path IH];
    intros index level Hdrop Hmore; [done|].
  destruct (last_index _ _ _ _ Hdrop) as (Hlast & Hdrop' & _).
  cbn [app walk add_parts]. rewrite Hlast. clear Hlast.
  destruct (list_find _ level) as [[i existing]|] eqn:Hfind; [|done].
  rewrite bool_decide_eq_false_2 by (by destruct path, more).
  destruct path as [|next path].
  - intros [= <-] ->. done.
  - destruct (node_children existing) as [children|]; [|done].
    intros Hwalk Hnone. by rewrite (IH _ _ Hdrop' Hmore Hwalk Hnone).
Qed.

(** ** Files that do not meet *)

Lemma join_app_ne sep (l1 l2 : list jsstring) :
  l1 ≠ [] → l2 ≠ [] →
  join sep (l1 ++ l2) = join sep l1 ++ sep :: join sep l2.
Proof.
  intros H1 H2. induction l1 as [|x l1 IH]; [done|].
  destruct l1 as [|y l1].
  - destruct l2; [done|]. done.
  - change (join sep ((x :: y :: l1) ++ l2))
      with (x ++ sep :: join sep ((y :: l1) ++ l2)).
    rewrite IH by done. simpl. by rewrite <- app_assoc.
Qed.

Lemma join_parts_from (parts : list jsstring) index part rest :
  drop index parts = part :: rest → rest ≠ [] →
  join slash parts
  = join slash (take (S index) parts) ++ slash :: join slash rest.
Proof.
  intros Hdrop Hrest.
  destruct (last_index _ _ _ _ Hdrop) as (_ & Hdrop' & Htake).
  rewrite <- (take_drop (S index) parts) at 1. rewrite Hdrop'.
  apply join_app_ne; [|done]. rewrite Htake. by destruct (take index parts).
Qed.

Lemma path_prefix_parts (parts : list jsstring) index part rest :
  drop index parts = part :: rest →
  path_prefix (join slash (take (S index) parts)) (join slash parts).
Proof.
  intros Hdrop. destruct rest as [|next rest].
  - left. by rewrite (take_last_part _ _ _ Hdrop).
  - right. eexists. by apply (join_parts_from _ _ _ _ Hdrop).
Qed.

Lemma shaped_inv above node :
  shaped above node →
  node_path node = join slash (above ++ [node_name node])
  ∧ ((node_type node = type_file ∧ node_children node = None)
     ∨ (node_type node = type_directory
        ∧ ∃ children,
            node_children node = Some children
            ∧ node_content node = None
            ∧ Forall (shaped (above ++ [node_name node])) children
            ∧ leaves children ≠ [])).
Proof.
  destruct 1 as [above name content|above name children Hchildren Hsome];
    (split; [done|]); [by left|right; split; [done|]; by exists children].
Qed.

Lemma shaped_leaves_below node :
  ∀ above leaf,
    shaped above node → leaf ∈ leaves_of node →
    ∃ below, below ≠ [] ∧ filename leaf = join slash (above ++ below).
Proof.
  induction node as [name type path content|name type path children content IH]
    using DirectoryNode_nested_ind; intros above leaf Hshaped Hleaf.
  - inversion Hshaped; subst. apply list_elem_of_singleton in Hleaf as ->.
    by exists [name].
  - inversion Hshaped as [|? ? ? Hchildren _]; subst.
    rewrite leaves_of_directory in Hleaf.
    apply elem_of_leaves in Hleaf as (child & Hchild & Hleaf).
    rewrite Forall_forall in IH, Hchildren.
    destruct (IH _ Hchild _ _ (Hchildren _ Hchild) Hleaf) as (below & Hne & ->).
    exists (name :: below). split; [done|]. by rewrite <- app_assoc.
Qed.

Lemma add_parts_unrelated parts file_content index rest level :
  drop index parts = rest → rest ≠ [] →
  Forall (shaped (take index parts)) level →
  (∀ leaf, leaf ∈ leaves level →
           unrelated (filename leaf) (join slash parts)) →
  ∃ level',
    add_parts parts file_content index rest level = Ok level'
    ∧ leaves level'
      ≡ₚ leaves level
         ++ [{| filename := join slash parts; content := file_content |}]
    ∧ Forall (shaped (take index parts)) level'.
Proof.
  revert index level. induction rest as [|part rest IH];
    intros index level Hdrop Hne Hshaped Hleaves; [done|].
  destruct (last_index _ _ _ _ Hdrop) as (Hlast & Hdrop' & Htake).
  pose proof (path_prefix_parts _ _ _ _ Hdrop) as Hprefix.
  cbn [add_parts]. rewrite Hlast. clear Hlast.
  destruct (list_find _ level) as [[i existing]|] eqn:Hfind.
  - apply list_find_Some in Hfind as (Hi & Hname & _).
    pose proof (Forall_lookup_1 _ _ _ _ Hshaped Hi) as Hexisting.
    assert (∀ leaf, leaf ∈ leaves_of existing → leaf ∈ leaves level) as Hsub.
    { intros leaf Hleaf. apply elem_of_leaves. exists existing.
      split; [by eapply list_elem_of_lookup_2|done]. }
    destruct (shaped_inv _ _ Hexisting)
      as [Hpath [[Htype Hch]|(Htype & children & Hch & Hcontent & Hchildren & Hsome)]];
      destruct existing as [n t p c k];
      cbn [node_name node_type node_path node_children node_content] in *;
      subst n t p c.
    + exfalso.
      destruct (Hleaves _ (Hsub _ ltac:(left))) as [Hno _].
      apply Hno. cbn [filename]. by rewrite <- Htake.
    + subst k. rewrite <- Htake in Hchildren.
      case_bool_decide as Hrest.
      * exfalso. rewrite Hrest in Hdrop.
        destruct (leaves children) as [|leaf others] eqn:El; [done|].
        assert (leaf ∈ leaves children) as Hleaf by (rewrite El; left).
        pose proof Hleaf as Hleaf'.
        apply elem_of_leaves in Hleaf as (child & Hchild & Hleaf).
        rewrite Forall_forall in Hchildren.
        destruct (shaped_leaves_below _ _ _ (Hchildren _ Hchild) Hleaf)
          as (below & Hbelow & Hbpath).
        rewrite (take_last_part _ _ _ Hdrop) in Hbpath.
        rewrite join_app_ne in Hbpath
          by (done || (intros ->; by rewrite drop_nil in Hdrop)).
        assert (leaf ∈ leaves level) as Hin.
        { apply Hsub. by rewrite leaves_of_directory. }
        destruct (Hleaves _ Hin) as [_ Hno]. apply Hno. right. eauto.
      * destruct (IH (S index) children Hdrop' Hrest Hchildren)
          as (children' & -> & Hperm & Hshaped').
        { intros leaf Hleaf. apply Hleaves, Hsub.
          by rewrite leaves_of_directory. }
        cbn [mbind result_bind with_children]. eexists. split; [done|].
        split.
        -- rewrite insert_take_drop by (by eapply lookup_lt_Some).
           rewrite <- (take_drop_middle _ _ _ Hi) at 3.
           rewrite !leaves_app, !leaves_cons, !leaves_of_directory, Hperm.
           rewrite <- !app_assoc. do 2 f_equiv. apply Permutation_app_comm.
        -- apply Forall_insert; [done|].
           rewrite Htake in Hshaped'. constructor; [done|].
           intros Hnil. rewrite Hnil in Hperm.
           apply Permutation_nil_l in Hperm. by destruct (leaves children).
  - case_bool_decide as Hrest.
    + rewrite Hrest in Hdrop. eexists. split; [done|]. split.
      * rewrite leaves_app. by rewrite (take_last_part _ _ _ Hdrop).
      * apply Forall_app. split; [done|]. repeat constructor.
        rewrite Htake. constructor.
    + destruct (IH (S index) [] Hdrop' Hrest) as (children' & -> & Hperm & Hshaped').
      { constructor. }
      { by intros leaf ?%elem_of_nil. }
      cbn [mbind result_bind with_children]. eexists. split; [done|]. split.
      * rewrite leaves_app. unfold leaves at 2.
        cbn [fmap list_fmap concat]. rewrite app_nil_r.
        by rewrite leaves_of_directory, Hperm.
      * apply Forall_app. split; [done|]. repeat constructor.
        rewrite Htake in *. constructor; [done|].
        intros Hnil. rewrite Hnil in Hperm.
        by apply Permutation_nil_l in Hperm.
Qed.

Lemma add_files_unrelated files root before :
  Forall (shaped []) root → leaves root ≡ₚ before →
  unrelated_files files →
  (∀ f d, f ∈ files → d ∈ before → unrelated (filename d) (filename f)) →
  ∃ root', add_files files root = Ok root' ∧ leaves root' ≡ₚ before ++ files.
Proof.
  revert root before. induction files as [|f files IH];
    intros root before Hshaped Hleaves Hfiles Hbefore.
  - exists root. by rewrite app_nil_r.
  - destruct Hfiles as [Hf Hfiles]. cbn [add_files].
    destruct (add_parts_unrelated (split slash (filename f)) (content f) 0
                (split slash (filename f)) root eq_refl (split_not_nil _ _)
                Hshaped) as (root1 & -> & Hperm & Hshaped1).
    { intros leaf Hleaf. rewrite join_split. apply Hbefore; [left|].
      by rewrite <- Hleaves. }
    cbn [mbind result_bind]. rewrite join_split in Hperm.
    destruct (IH root1 (before ++ [f]) Hshaped1) as (root' & -> & Hperm').
    + rewrite Hperm, Hleaves. by destruct f.
    + done.
    + intros g d Hg [Hd| ->%list_elem_of_singleton]%elem_of_app.
      * apply Hbefore; [by right|done].
      * rewrite Forall_forall in Hf. by apply Hf.
    + exists root'. split; [done|]. by rewrite Hperm', <- app_assoc.
Qed.

Lemma path_prefix_spec a b :
  path_prefix a b ↔ a = b ∨ startsWith b (a ++ [slash]) = true.
Proof.
  unfold path_prefix. rewrite startsWith_app. f_equiv.
  split; intros [more ->]; exists more; by rewrite <- app_assoc.
Qed.

#[global] Instance path_prefix_dec a b : Decision (path_prefix a b).
Proof.
  refine (cast_if (decide (a = b ∨ startsWith b (a ++ [slash]) = true)));
    by rewrite path_prefix_spec.
Defined.

#[global] Instance unrelated_dec a b : Decision (unrelated a b).
Proof. unfold unrelated. apply _. Defined.

#[global] Instance unrelated_files_dec files : Decision (unrelated_files files).
Proof. induction files as [|f files IH]; simpl; apply _. Defined.

(** ** Names in a level *)

Lemma distinct_node_children name type path children content :
  distinct_node (mkNode name type path (Some children) content)
  ↔ distinct children.
Proof.
  unfold distinct. simpl. f_equiv.
  induction children as [|child children IH]; simpl.
  - split; [constructor|done].
  - by rewrite Forall_cons, IH.
Qed.

Lemma distinct_with_children node children :
  distinct children → distinct_node (with_children node children).
Proof. destruct node. apply distinct_node_children. Qed.

Lemma add_parts_distinct parts file_content index rest level level' :
  distinct level →
  add_parts parts file_content index rest level = Ok level' →
  distinct level'.
Proof.
  revert index level level'. induction rest as [|part rest IH];
    intros index level level' [Hnames Hnodes]; cbn [add_parts].
  { by intros [= <-]. }
  destruct (list_find _ level) as [[i existing]|] eqn:Hfind.
  - destruct (bool_decide _); [by intros [= <-]|].
    destruct (node_children existing) as [children|] eqn:Hch; [|done].
    destruct (add_parts parts file_content (S index) rest children)
      as [children'|] eqn:E; [|done].
    cbn [mbind result_bind]. intros [= <-].
    apply list_find_Some in Hfind as (Hi & _ & _).
    assert (distinct children) as Hchildren.
    { pose proof (Forall_lookup_1 _ _ _ _ Hnodes Hi) as H.
      destruct existing as [n t p c k]. cbn in Hch. subst c.
      by apply distinct_node_children in H. }
    split.
    + rewrite list_fmap_insert, with_children_name, list_insert_id; [done|].
      by rewrite list_lookup_fmap, Hi.
    + apply Forall_insert; [done|]. apply distinct_with_children. by eapply IH.
  - apply list_find_None in Hfind.
    assert (part ∉ node_name <$> level) as Hfresh.
    { intros (node & -> & Hnode)%list_elem_of_fmap.
      rewrite Forall_forall in Hfind. by apply (Hfind node). }
    assert (∀ node, node_name node = part → distinct_node node →
              distinct (level ++ [node])) as Hsnoc.
    { intros node Hname Hnode. split.
      - rewrite fmap_app. apply NoDup_app. split; [done|].
        split; [|apply NoDup_singleton].
        intros x Hx ->%list_elem_of_singleton. simpl in Hx. congruence.
      - apply Forall_app. split; [done|]. by constructor. }
    destruct (bool_decide _); [intros [= <-]; by apply Hsnoc|].
    destruct (add_parts parts file_content (S index) rest [])
      as [children'|] eqn:E; [|done].
    cbn [mbind result_bind]. intros [= <-]. apply Hsnoc; [done|].
    apply distinct_node_children. eapply IH; [|done].
    split; constructor.
Qed.

Lemma add_files_distinct files root root' :
  distinct root → add_files files root = Ok root' → distinct root'.
Proof.
  revert root. induction files as [|file files IH]; intros root Hroot;
    cbn [add_files]; [by intros [= <-]|].
  destruct (add_parts _ _ _ _ root) as [root1|] eqn:E; [|done].
  cbn [mbind result_bind]. apply IH. by eapply add_parts_distinct.
Qed.

(** ** Paths *)

Lemma pathed_node_children above name type path children content :
  pathed_node above (mkNode name type path (Some children) content)
  ↔ path = join slash (above ++ [name]) ∧ pathed (above ++ [name]) children.
Proof.
  unfold pathed. simpl. f_equiv.
  induction children as [|child children IH]; simpl.
  - split; [constructor|done].
  - by rewrite Forall_cons, IH.
Qed.

Lemma pathed_with_children above node children :
  pathed_node above node →
  pathed (above ++ [node_name node]) children →
  pathed_node above (with_children node children).
Proof.
  destruct node as [name type path [old|] content]; cbn [with_children node_name];
    intros H Hchildren; apply pathed_node_children.
  - apply pathed_node_children in H as [-> _]. done.
  - destruct H as [-> _]. done.
Qed.

Lemma add_parts_pathed parts file_content index rest level level' :
  drop index parts = rest →
  pathed (take index parts) level →
  add_parts parts file_content index rest level = Ok level' →
  pathed (take index parts) level'.
Proof.
  revert index level level'. induction rest as [|part rest IH];
    intros index level level' Hdrop Hlevel; cbn [add_parts].
  { by intros [= <-]. }
  destruct (last_index _ _ _ _ Hdrop) as (_ & Hdrop' & Htake).
  destruct (list_find _ level) as [[i existing]|] eqn:Hfind.
  - destruct (bool_decide _); [by intros [= <-]|].
    destruct (node_children existing) as [children|] eqn:Hch; [|done].
    destruct (add_parts parts file_content (S index) rest children)
      as [children'|] eqn:E; [|done].
    cbn [mbind result_bind]. intros [= <-].
    apply list_find_Some in Hfind as (Hi & Hname & _).
    pose proof (Forall_lookup_1 _ _ _ _ Hlevel Hi) as Hexisting.
    apply Forall_insert; [done|].
    apply pathed_with_children; [done|]. rewrite Hname, <- Htake.
    eapply IH; [done| |done]. rewrite Htake, <- Hname.
    destruct existing as [n t p c k]. cbn in Hch. subst c.
    by apply pathed_node_children in Hexisting as [_ ?].
  - assert (∀ type children content,
              pathed (take (S index) parts) children →
              pathed (take index parts)
                (level ++ [mkNode part type (join slash (take (S index) parts))
                             (Some children) content])) as Hsnoc.
    { intros type children content Hchildren.
      apply Forall_app. split; [done|]. constructor; [|constructor].
      apply pathed_node_children. by rewrite <- Htake. }
    destruct (bool_decide _).
    + intros [= <-]. apply Forall_app. split; [done|].
      constructor; [|constructor]. by rewrite Htake.
    + destruct (add_parts parts file_content (S index) rest [])
        as [children'|] eqn:E; [|done].
      cbn [mbind result_bind]. intros [= <-]. apply Hsnoc.
      eapply IH; [done| |done]. constructor.
Qed.

Lemma add_files_pathed files root root' :
  pathed [] root → add_files files root = Ok root' → pathed [] root'.
Proof.
  revert root. induction files as [|file files IH]; intros root Hroot;
    cbn [add_files]; [by intros [= <-]|].
  destruct (add_parts _ _ _ _ root) as [root1|] eqn:E; [|done].
  cbn [mbind result_bind]. apply IH.
  by apply (add_parts_pathed (split slash (filename file)) (content file) 0
              (split slash (filename file)) root root1 eq_refl Hroot).
Qed.

Section tree_properties.

Context (localeCompare : jsstring → jsstring → Z).

Lemma sortNodes_leaves fuel nodes :
  leaves (sortNodes localeCompare fuel nodes) ≡ₚ leaves nodes.
Proof.
  revert nodes. induction fuel as [|fuel IH]; intros nodes; [done|].
  cbn [sortNodes].
  rewrite <- (leaves_Permutation _ _
                (Array_sort_Permutation (compare_nodes localeCompare) nodes)).
  induction (Array_sort (compare_nodes localeCompare) nodes)
    as [|node sorted IHs]; [done|].
  rewrite fmap_cons, !leaves_cons, IHs. f_equiv.
  destruct node as [name [] path [children|] content];
    cbn [node_type node_children with_children]; try done.
  rewrite !leaves_of_directory. apply IH.
Qed.

Lemma buildDirectoryTree_Ok files tree :
  buildDirectoryTree localeCompare files = Ok tree →
  ∃ root, add_files files [] = Ok root
          ∧ tree = sortNodes localeCompare (S (heights root)) root.
Proof.
  unfold buildDirectoryTree.
  destruct (add_files files []) as [root|]; [|done].
  intros H. exists root. split; [done|]. symmetry. by injection H.
Qed.

(** Every file that the tree offers for selection is one of the files
    given, with its filename and its content. *)
Theorem tree_files_are_given files tree :
  buildDirectoryTree localeCompare files = Ok tree →
  ∀ leaf, leaf ∈ leaves tree → leaf ∈ files.
Proof.
  intros (root & E & ->)%buildDirectoryTree_Ok leaf Hleaf.
  rewrite sortNodes_leaves in Hleaf.
  destruct (add_files_leaves _ _ _ E leaf Hleaf) as [Hin|Hin]; [|done].
  by apply elem_of_nil in Hin.
Qed.

(** ** The order of a level *)

Lemma compare_nodes_rank a b :
  ((rank a < rank b)%nat → (compare_nodes localeCompare a b < 0)%Z)
  ∧ ((rank b < rank a)%nat → (0 < compare_nodes localeCompare a b)%Z).
Proof.
  unfold rank, compare_nodes.
  destruct (startsWith (node_name a) (lit ".")),
    (startsWith (node_name b) (lit ".")),
    (node_type a), (node_type b); simpl; lia.
Qed.

Lemma insert_sorted_ranked x l :
  StronglySorted rank_le l →
  StronglySorted rank_le (insert_sorted (compare_nodes localeCompare) x l).
Proof.
  induction 1 as [|y l Hl IH Hy]; simpl.
  - repeat constructor.
  - destruct (compare_nodes_rank y x) as [Hlt Hgt].
    destruct (0 <? compare_nodes localeCompare y x)%Z eqn:E.
    + apply Z.ltb_lt in E.
      assert (rank_le x y) as Hxy by (unfold rank_le; lia).
      constructor; [by constructor|]. constructor; [done|].
      eapply Forall_impl; [exact Hy|]. unfold rank_le in *. intros; lia.
    + apply Z.ltb_ge in E.
      assert (rank_le y x) as Hyx by (unfold rank_le; lia).
      constructor; [done|].
      rewrite insert_sorted_Permutation. by constructor.
Qed.

Lemma Array_sort_ranked l :
  StronglySorted rank_le (Array_sort (compare_nodes localeCompare) l).
Proof.
  unfold Array_sort.
  assert (∀ sorted, StronglySorted rank_le sorted →
            StronglySorted rank_le
              (foldl (λ sorted x,
                        insert_sorted (compare_nodes localeCompare) x sorted)
                     sorted l)) as H.
  { induction l as [|x l IH]; intros sorted Hs; simpl; [done|].
    by apply IH, insert_sorted_ranked. }
  apply H. constructor.
Qed.

Lemma ordered_node_directory name path children content :
  ordered_node (mkNode name type_directory path (Some children) content)
  ↔ ordered children.
Proof.
  unfold ordered. simpl. f_equiv.
  induction children as [|child children IH]; simpl.
  - split; [constructor|done].
  - by rewrite Forall_cons, IH.
Qed.

Lemma sortNodes_ordered fuel nodes :
  (heights nodes < fuel)%nat → ordered (sortNodes localeCompare fuel nodes).
Proof.
  revert nodes. induction fuel as [|fuel IH]; intros nodes Hfuel; [lia|].
  cbn [sortNodes]. split.
  - eapply StronglySorted_fmap; [|apply Array_sort_ranked].
    intros a b Hab. unfold rank_le, rank in *.
    destruct a as [? [] ? [?|] ?], b as [? [] ? [?|] ?]; exact Hab.
  - apply Forall_fmap, Forall_forall. intros node Hnode.
    rewrite Array_sort_Permutation in Hnode.
    apply height_le_heights in Hnode.
    destruct node as [name [] path [children|] content];
      cbn [node_type node_children with_children compose]; try done.
    apply ordered_node_directory, IH.
    rewrite height_children in Hnode. lia.
Qed.

(** At every level of the tree the directories come first, then the files
    whose name begins with a full stop, then the other files. *)
Theorem tree_levels_ordered files tree :
  buildDirectoryTree localeCompare files = Ok tree → ordered tree.
Proof.
  intros (root & _ & ->)%buildDirectoryTree_Ok.
  apply sortNodes_ordered. lia.
Qed.

(** ** Files that meet *)

(** A file that has the filename of a file before it in the list does not
    show in the tree: the tree is the one of the list without it. *)
Theorem later_file_of_same_name_ignored before f between g after :
  filename g = filename f →
  buildDirectoryTree localeCompare (before ++ f :: between ++ g :: after)
  = buildDirectoryTree localeCompare (before ++ f :: between ++ after).
Proof.
  intros Hname. unfold buildDirectoryTree.
  assert (add_files (before ++ f :: between ++ g :: after) []
          = add_files (before ++ f :: between ++ after) []) as ->; [|done].
  assert (before ++ f :: between ++ g :: after
          = ((before ++ [f]) ++ between) ++ g :: after) as ->
    by (by rewrite <- !app_assoc).
  assert (before ++ f :: between ++ after
          = ((before ++ [f]) ++ between) ++ after) as ->
    by (by rewrite <- !app_assoc).
  rewrite !(add_files_app _ (g :: after)), !(add_files_app _ after),
    !(add_files_app _ between).
  destruct (add_files (before ++ [f]) []) as [root1|] eqn:E1; [|done].
  cbn [mbind result_bind].
  destruct (add_files between root1) as [root2|] eqn:E2; [|done].
  cbn [mbind result_bind add_files].
  rewrite add_files_app in E1.
  destruct (add_files before []) as [root0|]; [|done].
  cbn [mbind result_bind add_files] in E1.
  destruct (add_parts _ _ _ _ root0) as [root1'|] eqn:E; [|done].
  cbn [mbind result_bind] in E1. injection E1 as ->.
  destruct (walk_established (split slash (filename f)) (content f) 0
              (split slash (filename f)) root0 root1 eq_refl
              (split_not_nil _ _) E) as [node Hwalk].
  destruct (add_files_preserved _ _ _ _ _ E2 Hwalk) as (node' & Hwalk' & _).
  rewrite Hname.
  by rewrite (walk_noop (split slash (filename f)) (content g) 0
                (split slash (filename f)) root2 node' eq_refl Hwalk').
Qed.

(** When the first file of the list is named as a directory above a later
    file, the tree is not built: the function throws a [TypeError]. *)
Theorem file_below_first_file_throws f between g after more :
  filename g = filename f ++ slash :: more →
  buildDirectoryTree localeCompare (f :: between ++ g :: after)
  = Throw TypeError.
Proof.
  intros Hname. unfold buildDirectoryTree.
  assert (add_files (f :: between ++ g :: after) [] = Throw TypeError) as ->;
    [|done].
  destruct (add_files (f :: between ++ g :: after) []) as [root|e] eqn:Hall;
    [|by rewrite (add_files_exn _ _ _ Hall)].
  exfalso. cbn [add_files] in Hall.
  destruct (add_parts _ _ _ _ []) as [root1|] eqn:E; [|done].
  cbn [mbind result_bind] in Hall. rewrite add_files_app in Hall.
  destruct (add_files between root1) as [root2|] eqn:E2; [|done].
  cbn [mbind result_bind add_files] in Hall.
  destruct (walk_file_created (split slash (filename f)) (content f) 0
              (split slash (filename f)) root1 eq_refl (split_not_nil _ _) E)
    as (node & Hwalk & Hnone).
  destruct (add_files_preserved _ _ _ _ _ E2 Hwalk) as (node' & Hwalk' & Hsame).
  rewrite (Hsame Hnone) in Hwalk'.
  rewrite Hname, split_app in Hall.
  rewrite (walk_throw (split slash (filename f) ++ split slash more)
             (content g) 0 (split slash (filename f)) (split slash more)
             root2 node eq_refl (split_not_nil _ _) Hwalk' Hnone) in Hall.
  done.
Qed.

(** When no file of the list is named as another file or as a directory
    above another file, the tree is built, and the files it offers for
    selection are the files given, each once, with its filename and its
    content. *)
Theorem tree_of_unrelated_files files :
  unrelated_files files →
  ∃ tree, buildDirectoryTree localeCompare files = Ok tree
          ∧ leaves tree ≡ₚ files.
Proof.
  intros Hfiles.
  destruct (add_files_unrelated files [] []) as (root & Hroot & Hperm);
    [constructor|done|done|by intros ? ? _ ?%elem_of_nil|].
  unfold buildDirectoryTree. rewrite Hroot. cbn [mbind result_bind].
  eexists. split; [done|]. by rewrite sortNodes_leaves.
Qed.

(** ** Fuel and names *)

(** The fuel [buildDirectoryTree] gives to [sortNodes] is enough: more
    fuel gives the same tree. *)
Lemma sortNodes_fuel fuel fuel' nodes :
  (heights nodes < fuel)%nat → (heights nodes < fuel')%nat →
  sortNodes localeCompare fuel nodes = sortNodes localeCompare fuel' nodes.
Proof.
  revert fuel' nodes. induction fuel as [|fuel IH];
    intros [|fuel'] nodes H H'; try lia.
  cbn [sortNodes]. apply list_fmap_ext. intros i node Hnode.
  apply list_elem_of_lookup_2 in Hnode.
  rewrite Array_sort_Permutation in Hnode.
  apply height_le_heights in Hnode.
  destruct node as [name [] path [children|] content];
    cbn [node_type node_children]; try done.
  rewrite height_children in Hnode. f_equal. apply IH; lia.
Qed.

Lemma sortNodes_distinct fuel nodes :
  distinct nodes → distinct (sortNodes localeCompare fuel nodes).
Proof.
  revert nodes. induction fuel as [|fuel IH]; intros nodes [Hnames Hnodes];
    [done|].
  cbn [sortNodes]. split.
  - rewrite <- list_fmap_compose.
    erewrite (list_fmap_ext (_ ∘ _) node_name);
      [by rewrite Array_sort_Permutation|].
    intros i [name [] path [children|] content] _; done.
  - apply Forall_fmap, Forall_forall. intros node Hnode.
    rewrite Array_sort_Permutation in Hnode.
    rewrite Forall_forall in Hnodes. specialize (Hnodes _ Hnode).
    destruct node as [name [] path [children|] content];
      cbn [node_type node_children compose]; try done.
    apply distinct_with_children, IH. by apply distinct_node_children in Hnodes.
Qed.

(** No two nodes of a level of the tree have the same name. *)
Theorem tree_names_distinct files tree :
  buildDirectoryTree localeCompare files = Ok tree → distinct tree.
Proof.
  intros (root & Hroot & ->)%buildDirectoryTree_Ok.
  apply sortNodes_distinct. eapply add_files_distinct; [|done].
  split; constructor.
Qed.

Lemma sortNodes_pathed fuel above nodes :
  pathed above nodes → pathed above (sortNodes localeCompare fuel nodes).
Proof.
  revert above nodes. induction fuel as [|fuel IH]; intros above nodes Hnodes;
    [done|].
  cbn [sortNodes]. apply Forall_fmap, Forall_forall. intros node Hnode.
  rewrite Array_sort_Permutation in Hnode.
  unfold pathed in Hnodes. rewrite Forall_forall in Hnodes.
  specialize (Hnodes _ Hnode).
  destruct node as [name [] path [children|] content];
    cbn [node_type node_children compose]; try done.
  apply pathed_with_children; [done|]. apply IH.
  by apply pathed_node_children in Hnodes as [_ ?].
Qed.

(** The path of every node of the tree is made of the names of the
    directories it is in, from the top, and of its own name, with a
    solidus between them. *)
Theorem tree_paths files tree :
  buildDirectoryTree localeCompare files = Ok tree → pathed [] tree.
Proof.
  intros (root & Hroot & ->)%buildDirectoryTree_Ok.
  apply sortNodes_pathed. eapply add_files_pathed; [|done]. constructor.
Qed.

End tree_properties.

(** * Instances of the further theorems *)

Lemma outcome_depends_on_text_witness :
  concat a_reads = concat [a_line ++ [nl]]
  ∧ generateCodeFromPrompt JSON.parse (with_body (stream []) a_reads)
    = generateCodeFromPrompt JSON.parse (with_body (stream []) [a_line ++ [nl]]).
Proof.
  assert (concat a_reads = concat [a_line ++ [nl]]) as H
    by (vm_compute; reflexivity).
  exact (conj H (outcome_depends_on_text JSON.parse (stream []) _ _ H)).
Defined.

Lemma success_status_errors_witness :
  ok (stream [cut_line ++ [nl]]) = true
  ∧ (generateCodeFromPrompt JSON.parse (stream [cut_line ++ [nl]])).2
    = Throw parse_error
  ∧ (generateCodeFromPrompt_rejected JSON.parse a_reads TypeError).2
    = Throw TypeError
  ∧ (∀ e, (generateCodeFromPrompt JSON.parse (stream [cut_line ++ [nl]])).2
          = Throw e →
          (body (stream [cut_line ++ [nl]]) = None
           ∧ e = Error (JStr (lit "No response body received"))
           ∧ (generateCodeFromPrompt JSON.parse
                (stream [cut_line ++ [nl]])).1 = [])
          ∨ (body (stream [cut_line ++ [nl]]) ≠ None ∧ e = parse_error))
  ∧ ∀ reads reason,
      (generateCodeFromPrompt_rejected JSON.parse reads reason).1
      = (generateCodeFromPrompt JSON.parse
           (with_body (stream [cut_line ++ [nl]]) reads)).1
      ∧ match (generateCodeFromPrompt JSON.parse
                 (with_body (stream [cut_line ++ [nl]]) reads)).2 with
        | Ok _ =>
            (generateCodeFromPrompt_rejected JSON.parse reads reason).2
            = Throw reason
        | Throw e =>
            e = parse_error
            ∧ (generateCodeFromPrompt_rejected JSON.parse reads reason).2
              = Throw parse_error
        end.
Proof.
  assert (ok (stream [cut_line ++ [nl]]) = true) as H1 by reflexivity.
  assert ((generateCodeFromPrompt JSON.parse (stream [cut_line ++ [nl]])).2
          = Throw parse_error) as H2 by (vm_compute; reflexivity).
  assert ((generateCodeFromPrompt_rejected JSON.parse a_reads TypeError).2
          = Throw TypeError) as H3 by (vm_compute; reflexivity).
  exact (conj H1 (conj H2 (conj H3
    (success_status_errors JSON.parse (stream [cut_line ++ [nl]]) H1)))).
Defined.



Lemma snapshots_grow_witness :
  (generateCodeFromPrompt JSON.parse (stream slash_reads)).1 !! 0%nat
  = Some [{| filename := lit "a.ts"; content := lit "one" |}]
  ∧ (generateCodeFromPrompt JSON.parse (stream slash_reads)).1 !! 1%nat
    = Some slash_files
  ∧ (∃ f, [{| filename := lit "a.ts"; content := lit "one" |}] = [f])
  ∧ snapshot_step [{| filename := lit "a.ts"; content := lit "one" |}] slash_files.
Proof.
  assert ((generateCodeFromPrompt JSON.parse (stream slash_reads)).1 !! 0%nat
          = Some [{| filename := lit "a.ts"; content := lit "one" |}]) as H0
    by (vm_compute; reflexivity).
  assert ((generateCodeFromPrompt JSON.parse (stream slash_reads)).1 !! 1%nat
          = Some slash_files) as H1 by (vm_compute; reflexivity).
  destruct (snapshots_grow JSON.parse (stream slash_reads)) as [Hfirst Hstep].
  exact (conj H0 (conj H1 (conj (Hfirst _ H0) (Hstep _ _ _ H0 H1)))).
Defined.

Lemma status_text_lines_witness :
  List.find (λ f, bool_decide (filename f = lit "status.log")) status_files
  = Some {| filename := lit "status.log"; content := join nl status_lines |}
  ∧ status_lines ≠ []
  ∧ Forall (λ line, nl ∉ line) status_lines
  ∧ (JSON.parse (join nl status_lines) = None
     ∨ JSON.parse (join nl status_lines) = Some JNull)
  ∧ status_effect JSON.parse status_files [JStr (lit "earlier")]
    = JStr <$> filter (λ line, trim line ≠ []) status_lines.
Proof.
  assert (List.find (λ f, bool_decide (filename f = lit "status.log")) status_files
          = Some {| filename := lit "status.log";
                    content := join nl status_lines |}) as H1
    by (vm_compute; reflexivity).
  assert (status_lines ≠ []) as H2 by discriminate.
  assert (Forall (λ line, nl ∉ line) status_lines) as H3 by compute_done.
  assert (JSON.parse (join nl status_lines) = None
          ∨ JSON.parse (join nl status_lines) = Some JNull) as H4
    by (left; vm_compute; reflexivity).
  exact (conj H1 (conj H2 (conj H3 (conj H4
    (status_text_lines JSON.parse status_files _ status_lines
       [JStr (lit "earlier")] H1 eq_refl H2 H3 H4))))).
Defined.

Lemma tree_files_are_given_witness :
  buildDirectoryTree compare_code_units tree_files = Ok tree_of_tree_files
  ∧ ∀ leaf, leaf ∈ leaves tree_of_tree_files → leaf ∈ tree_files.
Proof.
  assert (buildDirectoryTree compare_code_units tree_files
          = Ok tree_of_tree_files) as H by (vm_compute; reflexivity).
  exact (conj H (tree_files_are_given compare_code_units _ _ H)).
Defined.

Lemma tree_levels_ordered_witness :
  buildDirectoryTree compare_code_units tree_files = Ok tree_of_tree_files
  ∧ ordered tree_of_tree_files.
Proof.
  assert (buildDirectoryTree compare_code_units tree_files
          = Ok tree_of_tree_files) as H by (vm_compute; reflexivity).
  exact (conj H (tree_levels_ordered compare_code_units _ _ H)).
Defined.

Lemma later_file_of_same_name_ignored_witness :
  filename {| filename := lit "a.ts"; content := lit "two" |}
  = filename {| filename := lit "a.ts"; content := lit "one" |}
  ∧ buildDirectoryTree compare_code_units
      ([] ++ {| filename := lit "a.ts"; content := lit "one" |}
          :: [] ++ {| filename := lit "a.ts"; content := lit "two" |} :: [])
    = buildDirectoryTree compare_code_units
        ([] ++ {| filename := lit "a.ts"; content := lit "one" |} :: [] ++ []).
Proof.
  exact (conj eq_refl
    (later_file_of_same_name_ignored compare_code_units []
       {| filename := lit "a.ts"; content := lit "one" |} []
       {| filename := lit "a.ts"; content := lit "two" |} [] eq_refl)).
Defined.

Lemma file_below_first_file_throws_witness :
  filename file_a_b = filename file_a ++ slash :: lit "b"
  ∧ buildDirectoryTree compare_code_units (file_a :: [] ++ file_a_b :: [])
    = Throw TypeError.
Proof.
  assert (filename file_a_b = filename file_a ++ slash :: lit "b") as H
    by (vm_compute; reflexivity).
  exact (conj H
    (file_below_first_file_throws compare_code_units file_a [] file_a_b []
       (lit "b") H)).
Defined.

Lemma tree_of_unrelated_files_witness :
  unrelated_files tree_files
  ∧ ∃ tree, buildDirectoryTree compare_code_units tree_files = Ok tree
            ∧ leaves tree ≡ₚ tree_files.
Proof.
  assert (unrelated_files tree_files) as H by compute_done.
  exact (conj H (tree_of_unrelated_files compare_code_units tree_files H)).
Defined.

Lemma tree_names_distinct_witness :
  buildDirectoryTree compare_code_units tree_files = Ok tree_of_tree_files
  ∧ distinct tree_of_tree_files.
Proof.
  assert (buildDirectoryTree compare_code_units tree_files
          = Ok tree_of_tree_files) as H by (vm_compute; reflexivity).
  exact (conj H (tree_names_distinct compare_code_units _ _ H)).
Defined.

Lemma tree_paths_witness :
  buildDirectoryTree compare_code_units tree_files = Ok tree_of_tree_files
  ∧ pathed [] tree_of_tree_files.
Proof.
  assert (buildDirectoryTree compare_code_units tree_files
          = Ok tree_of_tree_files) as H by (vm_compute; reflexivity).
  exact (conj H (tree_paths compare_code_units _ _ H)).
Defined.
